(** * curves: parametric space curves and the Circle aggregator

    A shallow embedding of [src/curves/main.cpp], in three parts: the program,
    the notions its properties are stated with, and the proofs.

    - [double] arithmetic is an interface ([DoubleArith]): the curve code is
      written once against it, the way the C++ is written against [double]
      and <cmath>.  Statements that only follow the shape of the code are
      proved for every interpretation of that interface; statements that need
      the laws of real arithmetic are proved at the instance [R_DoubleArith]
      (the idealisation the specification uses: "total functions over reals").
    - The abstract class [Curve] is a type class, the three C++ classes are
      records with an instance each, and what a [std::unique_ptr<Curve>] owns is
      an [object]: one of the three, dispatched on its run-time variant.
    - [std::vector<std::unique_ptr<Curve>>] is a [list object]; a [Circle*] is
      an address in that vector ([ptr]), so a view holds references, never
      copies.
    - What [main] takes from its libraries is a parameter: the random engine
      and the two distribution templates, [std::sort], the text of a
      [double], and the order in which the threads of the OpenMP team
      move. *)

From Stdlib Require Import String Ascii.
From Stdlib Require Import Reals Lra List ZArith QArith Qreals.
From Stdlib Require Import Permutation Sorted Arith Lia Bool.
Import ListNotations.

Close Scope Q_scope.
Set Implicit Arguments.

(** * Part I: the program *)

(** ** The arithmetic of [double] *)

Declare Scope double_scope.
Delimit Scope double_scope with D.

Class DoubleArith (double : Type) : Type := {
  (** a numeric literal of the source ([0.0], [0.1], [100.0], the [2] of
      [2 * M_PI]) *)
  dlit : Q -> double;
  dadd : double -> double -> double;
  dmul : double -> double -> double;
  ddiv : double -> double -> double;
  dneg : double -> double;
  (** [operator<] *)
  dlt : double -> double -> bool;
  dcos : double -> double;
  dsin : double -> double;
  (** the macro of <cmath> *)
  M_PI : double
}.

Infix "+" := dadd : double_scope.
Infix "*" := dmul : double_scope.
Infix "/" := ddiv : double_scope.
Notation "- a" := (dneg a) : double_scope.
Infix "<?" := dlt : double_scope.

(** [std::max(a, b)] of <algorithm>: [(a < b) ? b : a]. *)
Definition std_max {double} `{DoubleArith double} (a b : double) : double :=
  if (a <? b)%D then b else a.

(** The real numbers as an interpretation of [double]. *)
#[export] Instance R_DoubleArith : DoubleArith R := {|
  dlit := Q2R;
  dadd := Rplus;
  dmul := Rmult;
  ddiv := Rdiv;
  dneg := Ropp;
  dlt := fun a b => if Rlt_dec a b then true else false;
  dcos := cos;
  dsin := sin;
  M_PI := PI
|}.

(** ** Points and curves (lines 13-112)

    The private field [radius_] of Circle and of Helix is [Circle_radius_]
    and [Helix_radius_] here. *)

Section Curves.

Context {double : Type} `{DoubleArith double}.
Local Open Scope double_scope.

(** [struct Point]. *)
Record Point : Type := mkPoint { x : double; y : double; z : double }.

(** [class Curve]: the pure virtual members. *)
Class Curve (C : Type) : Type := {
  radius : C -> double;
  point : C -> double -> Point;
  derivative : C -> double -> Point
}.

(** [class Circle : public Curve]. *)
Record Circle : Type := mkCircle { Circle_radius_ : double }.

#[export] Instance Circle_Curve : Curve Circle := {|
  radius c := Circle_radius_ c;
  point c t :=
    mkPoint (Circle_radius_ c * dcos t) (Circle_radius_ c * dsin t) (dlit 0);
  derivative c t :=
    mkPoint (- Circle_radius_ c * dsin t) (Circle_radius_ c * dcos t) (dlit 0)
|}.

(** [class Ellipse : public Curve]. *)
Record Ellipse : Type := mkEllipse { radius_x_ : double; radius_y_ : double }.

#[export] Instance Ellipse_Curve : Curve Ellipse := {|
  radius e := std_max (radius_x_ e) (radius_y_ e);
  point e t :=
    mkPoint (radius_x_ e * dcos t) (radius_y_ e * dsin t) (dlit 0);
  derivative e t :=
    mkPoint (- radius_x_ e * dsin t) (radius_y_ e * dcos t) (dlit 0)
|}.

(** [class Helix : public Curve]. *)
Record Helix : Type := mkHelix { Helix_radius_ : double; step_ : double }.

#[export] Instance Helix_Curve : Curve Helix := {|
  radius h := Helix_radius_ h;
  point h t :=
    mkPoint (Helix_radius_ h * dcos t) (Helix_radius_ h * dsin t)
            (step_ h * t / (dlit 2 * M_PI));
  derivative h t :=
    mkPoint (- Helix_radius_ h * dsin t) (Helix_radius_ h * dcos t)
            (step_ h / (dlit 2 * M_PI))
|}.

(** What a [Curve*] points to: an object of one of the three classes.  A
    virtual call dispatches on the variant. *)
Inductive object : Type :=
| ObjCircle (c : Circle)
| ObjEllipse (e : Ellipse)
| ObjHelix (h : Helix).

#[export] Instance object_Curve : Curve object := {|
  radius o :=
    match o with
    | ObjCircle c => radius c
    | ObjEllipse e => radius e
    | ObjHelix h => radius h
    end;
  point o t :=
    match o with
    | ObjCircle c => point c t
    | ObjEllipse e => point e t
    | ObjHelix h => point h t
    end;
  derivative o t :=
    match o with
    | ObjCircle c => derivative c t
    | ObjEllipse e => derivative e t
    | ObjHelix h => derivative h t
    end
|}.

(** [dynamic_cast<Circle*>]: the object itself when its variant is Circle
    (no class derives from Circle), the null pointer otherwise. *)
Definition dynamic_cast_Circle (o : object) : option Circle :=
  match o with
  | ObjCircle c => Some c
  | _ => None
  end.

End Curves.

Arguments Point double : clear implicits.
Arguments Circle double : clear implicits.
Arguments Ellipse double : clear implicits.
Arguments Helix double : clear implicits.
Arguments object double : clear implicits.
Arguments Curve double C : clear implicits.

(** ** The collection builder (lines 115-137)

    The engine [std::mt19937 mt] is a value of a type [G] that each draw
    consumes and returns; the two distribution templates are functions of
    their bounds.  [radius_dist] and [step_dist] are separate objects with the
    same bounds.  C++ leaves the order of the two draws of an argument list
    open; they are taken left to right here. *)

Section Builder.

Context {double : Type} `{DoubleArith double}.
Variable G : Type.
Variable uniform_int_distribution : Z -> Z -> G -> Z * G.
Variable uniform_real_distribution : double -> double -> G -> double * G.

Definition size : nat := 10.

Definition type_dist : G -> Z * G := uniform_int_distribution 1 3.
Definition radius_dist : G -> double * G :=
  uniform_real_distribution (dlit 0.1) (dlit 100.0).
Definition step_dist : G -> double * G :=
  uniform_real_distribution (dlit 0.1) (dlit 100.0).

(** The body of the loop: the curve pushed, and the engine after it. *)
Definition make_curve (mt : G) : object double * G :=
  let (ty, mt) := type_dist mt in
  match ty with
  | 1%Z =>
      let (r, mt) := radius_dist mt in
      (ObjCircle (mkCircle r), mt)
  | 2%Z =>
      let (rx, mt) := radius_dist mt in
      let (ry, mt) := radius_dist mt in
      (ObjEllipse (mkEllipse rx ry), mt)
  | _ =>
      let (r, mt) := radius_dist mt in
      let (s, mt) := step_dist mt in
      (ObjHelix (mkHelix r s), mt)
  end.

(** [n] more rounds of the loop. *)
Fixpoint build_loop (n : nat) (curves : list (object double)) (mt : G)
    : list (object double) * G :=
  match n with
  | O => (curves, mt)
  | S n' =>
      let (c, mt') := make_curve mt in
      build_loop n' (curves ++ [c]) mt'
  end.

Definition build_curves (mt : G) : list (object double) :=
  fst (build_loop size [] mt).

End Builder.

(** ** The Circle aggregator: filter and sort (lines 147-159) *)

(** A [Circle*] (or [Curve*]) into the collection: the position of the
    [unique_ptr] that owns the object. *)
Definition ptr : Type := nat.

Section Filter.

Context {double : Type} `{DoubleArith double}.

(** The locals of [main] the aggregator works on. *)
Record state : Type := mkState {
  curves : list (object double);
  circles : list ptr;
  radius_sum : double
}.

(** [p->radius()] through a pointer into [curves]: a virtual call on the
    object at [p].  Every pointer the program holds is valid (see
    [filter_loop_valid]); a dangling one, undefined in C++, reads [0.0] here. *)
Definition radius_at (curves : list (object double)) (p : ptr) : double :=
  match nth_error curves p with
  | Some o => radius o
  | None => dlit 0
  end.

(** The loop of lines 148-153, at position [p] of the collection with [rest]
    still to scan; [push_back] appends. *)
Fixpoint filter_loop (p : ptr) (rest : list (object double))
    (circles : list ptr) : list ptr :=
  match rest with
  | [] => circles
  | curve :: rest' =>
      filter_loop (S p) rest'
        (match dynamic_cast_Circle curve with
         | Some _ => circles ++ [p]
         | None => circles
         end)
  end.

Definition filter_circles (curves : list (object double)) : list ptr :=
  filter_loop 0 curves [].

Definition filter_step (st : state) : state :=
  mkState (curves st) (filter_loop 0 (curves st) []) (radius_sum st).

End Filter.

Arguments state double : clear implicits.

Section Sort.

Context {double : Type} `{DoubleArith double}.
Variable std_sort : forall A : Type, (A -> A -> bool) -> list A -> list A.

(** The lambda of lines 156-158. *)
Definition by_radius (curves : list (object double)) (a b : ptr) : bool :=
  (radius_at curves a <? radius_at curves b)%D.

(** Lines 155-159: only the vector of pointers is written. *)
Definition sort_step (st : state double) : state double :=
  mkState (curves st)
          (std_sort (by_radius (curves st)) (circles st))
          (radius_sum st).

End Sort.

(** ** The Circle aggregator: the parallel loop (lines 161-172)

    The loop is shared out over a team of [num_threads] threads; there is no
    [reduction] clause and no [atomic] or [critical] around the body, so
    [radius_sum] is one shared variable and the body
    [radius_sum += circles[i]->radius()] is a read of it followed by a write
    of it.  A run of the region is an interleaving of these reads and writes,
    given here as the list of thread numbers in the order they move. *)

Definition num_threads : nat := 4.

(** The iterations of [for (i = 0; i < n; ++i)] that thread [tid] of a team of
    [nthreads] runs under the static schedule without a chunk size (the one
    GCC picks when the directive names none): one contiguous block each, the
    first [n mod nthreads] threads taking one iteration more. *)
Definition omp_static_chunk (n nthreads tid : nat) : list nat :=
  let q := n / nthreads in
  let t := n mod nthreads in
  if tid <? t then seq ((q + 1) * tid) (q + 1) else seq (q * tid + t) q.

(** [l] with position [n] overwritten (nothing out of range). *)
Fixpoint set_nth (A : Type) (n : nat) (v : A) (l : list A) : list A :=
  match l, n with
  | [], _ => []
  | _ :: l', O => v :: l'
  | a :: l', S n' => a :: set_nth n' v l'
  end.

Section ParallelLoop.

Context {double : Type} `{DoubleArith double}.
Local Open Scope double_scope.

(** A thread of the team: the iterations it still has to run, and the value
    of [radius_sum] it has read for the iteration in progress, if any. *)
Record thread : Type := mkThread {
  todo : list nat;
  loaded : option double
}.

(** The region: the shared [radius_sum] and the team. *)
Record region : Type := mkRegion {
  shared_sum : double;
  team : list thread
}.

(** One move of thread [tid]; [term i] is [circles[i]->radius()].  A thread
    with nothing left waits at the barrier. *)
Definition omp_step (term : nat -> double) (r : region) (tid : nat) : region :=
  match nth_error (team r) tid with
  | None => r
  | Some th =>
      match todo th, loaded th with
      | [], _ => r
      | i :: rest, None =>
          mkRegion (shared_sum r)
                   (set_nth tid (mkThread (i :: rest) (Some (shared_sum r)))
                            (team r))
      | i :: rest, Some v =>
          mkRegion (v + term i) (set_nth tid (mkThread rest None) (team r))
      end
  end.

Definition omp_run (term : nat -> double) (sched : list nat) (r : region)
    : region :=
  fold_left (omp_step term) sched r.

Definition thread_done (th : thread) : bool :=
  match todo th with
  | [] => true
  | _ :: _ => false
  end.

(** The barrier at the end of the region. *)
Definition finished (r : region) : bool := forallb thread_done (team r).

Definition omp_team (n : nat) : list thread :=
  map (fun tid => mkThread (omp_static_chunk n num_threads tid) None)
      (seq 0 num_threads).

(** [circles[i]->radius()]. *)
Definition loop_term (st : state double) (i : nat) : double :=
  radius_at (curves st) (nth i (circles st) 0).

(** The parallel region under the interleaving [sched]: the state after the
    barrier, or [None] when [sched] stops before every thread is done. *)
Definition reduce_step (sched : list nat) (st : state double)
    : option (state double) :=
  let team0 := omp_team (length (circles st)) in
  let r := omp_run (loop_term st) sched (mkRegion (radius_sum st) team0) in
  if finished r then Some (mkState (curves st) (circles st) (shared_sum r))
  else None.

End ParallelLoop.

Arguments thread double : clear implicits.
Arguments region double : clear implicits.

(** ** The aggregator and [main] *)

Section Aggregate.

Context {double : Type} `{DoubleArith double}.
Variable std_sort : forall A : Type, (A -> A -> bool) -> list A -> list A.

(** Lines 147-172 on a collection: [circles] starts empty, [radius_sum]
    starts at [0.0]. *)
Definition aggregate (sched : list nat) (cs : list (object double))
    : option (state double) :=
  reduce_step sched
    (sort_step std_sort (filter_step (mkState cs [] (dlit 0)))).

End Aggregate.

Section Main.

Context {double : Type} `{DoubleArith double}.
Variable G : Type.
Variable uniform_int_distribution : Z -> Z -> G -> Z * G.
Variable uniform_real_distribution : double -> double -> G -> double * G.
Variable std_sort : forall A : Type, (A -> A -> bool) -> list A -> list A.

(** The value printed after "Total sum of radii of the circles: ", for an
    engine state and an interleaving of the parallel loop. *)
Definition main (mt : G) (sched : list nat) : option double :=
  option_map (fun st => radius_sum st)
    (aggregate std_sort sched
       (build_curves uniform_int_distribution uniform_real_distribution mt)).

End Main.

(** ** Text output (lines 19-22, 39-42, 47-49, 72-74, 95-97, 139-145, 174)

    How a [double] becomes text is the library's: [std::to_string] in the
    descriptions, [operator<<] of the stream everywhere else.  Both are
    parameters.  What [std::cout] receives is the list of its lines, each
    ended by a [std::endl]. *)

Class DoubleText (double : Type) : Type := {
  (** [std::to_string(double)] *)
  to_string : double -> string;
  (** [os << double] *)
  put_double : double -> string
}.

Section Output.

Context {double : Type} `{DoubleArith double} `{DoubleText double}.
Local Open Scope string_scope.

(** [operator<<] for [Point] (lines 19-22). *)
Definition put_Point (p : Point double) : string :=
  "(" ++ put_double (x p) ++ ", " ++ put_double (y p) ++ ", "
      ++ put_double (z p) ++ ")".

(** The private virtual member [objectInfo] of [Curve]. *)
Class CurveInfo (C : Type) : Type := {
  objectInfo : C -> string
}.

#[export] Instance Circle_Info : CurveInfo (Circle double) := {|
  objectInfo c := "Circle with r = " ++ to_string (Circle_radius_ c)
|}.

#[export] Instance Ellipse_Info : CurveInfo (Ellipse double) := {|
  objectInfo e :=
    "Ellipse with rx = " ++ to_string (radius_x_ e)
      ++ ", ry = " ++ to_string (radius_y_ e)
|}.

#[export] Instance Helix_Info : CurveInfo (Helix double) := {|
  objectInfo h :=
    "Helix with r = " ++ to_string (Helix_radius_ h)
      ++ ", s = " ++ to_string (step_ h)
|}.

#[export] Instance object_Info : CurveInfo (object double) := {|
  objectInfo o :=
    match o with
    | ObjCircle c => objectInfo c
    | ObjEllipse e => objectInfo e
    | ObjHelix h => objectInfo h
    end
|}.

(** [operator<<] for [Curve] (lines 39-42). *)
Definition put_Curve (curve : object double) : string := objectInfo curve.

(** The body of the loop of lines 140-145: the four lines of one curve. *)
Definition report_curve (t : double) (curve : object double) : list string :=
  [ put_Curve curve;
    "Point at t = PI / 4: " ++ put_Point (point curve t);
    "Derivative at t = PI / 4: " ++ put_Point (derivative curve t);
    "" ].

(** Lines 139-145. *)
Definition report (curves : list (object double)) : list string :=
  let t := (M_PI / dlit 4)%D in
  flat_map (report_curve t) curves.

(** Line 174. *)
Definition total_line (radius_sum : double) : string :=
  "Total sum of radii of the circles: " ++ put_double radius_sum.

End Output.

Section MainOutput.

Context {double : Type} `{DoubleArith double} `{DoubleText double}.
Variable G : Type.
Variable uniform_int_distribution : Z -> Z -> G -> Z * G.
Variable uniform_real_distribution : double -> double -> G -> double * G.
Variable std_sort : forall A : Type, (A -> A -> bool) -> list A -> list A.

(** Everything [main] prints, for an engine state and an interleaving of the
    parallel loop: the report of the collection, then the total. *)
Definition main_output (mt : G) (sched : list nat) : option (list string) :=
  let curves :=
    build_curves uniform_int_distribution uniform_real_distribution mt in
  match aggregate std_sort sched curves with
  | Some st => Some (report curves ++ [total_line (radius_sum st)])
  | None => None
  end.

End MainOutput.

(** * Part II: the notions the properties are stated with *)

(** ** Euclidean geometry *)

Section Geometry.

Local Open Scope R_scope.

(** The dot product, the length of a vector, and the distance of a point
    from the origin in the xy-plane. *)
Definition dot (p q : Point R) : R := x p * x q + y p * y q + z p * z q.
Definition magnitude (p : Point R) : R := sqrt (dot p p).
Definition xy_distance (p : Point R) : R := sqrt (x p * x p + y p * y p).

(** [d] is the derivative at [t] of the path [pt], coordinate by
    coordinate. *)
Definition tangent_of (pt : R -> Point R) (t : R) (d : Point R) : Prop :=
  derivable_pt_lim (fun u => x (pt u)) t (x d) /\
  derivable_pt_lim (fun u => y (pt u)) t (y d) /\
  derivable_pt_lim (fun u => z (pt u)) t (z d).

End Geometry.

(** ** The subview as the specification words it *)

Section SubviewSpec.

Context {double : Type} `{DoubleArith double}.

(** The positions, in collection order and counted from [p], of the entries
    whose run-time variant is exactly Circle. *)
Definition is_Circle (o : object double) : bool :=
  match o with
  | ObjCircle _ => true
  | _ => false
  end.

Fixpoint Circle_positions (p : ptr) (l : list (object double)) : list ptr :=
  match l with
  | [] => []
  | o :: l' =>
      if is_Circle o then p :: Circle_positions (S p) l'
      else Circle_positions (S p) l'
  end.

(** The values the Circles of a collection were constructed with, in
    collection order. *)
Fixpoint constructed_radii (l : list (object double)) : list double :=
  match l with
  | [] => []
  | ObjCircle c :: l' => Circle_radius_ c :: constructed_radii l'
  | _ :: l' => constructed_radii l'
  end.

End SubviewSpec.

(** ** The contract of [std::sort] *)

Section StdSortContract.

Variable A : Type.

(** What [std::sort] requires of its comparator, on the values of the range:
    irreflexive, transitive, and with a transitive incomparability. *)
Record strict_weak_order_on (comp : A -> A -> bool) (l : list A) : Prop := {
  swo_irrefl : forall a, In a l -> comp a a = false;
  swo_trans : forall a b c, In a l -> In b l -> In c l ->
      comp a b = true -> comp b c = true -> comp a c = true;
  swo_equiv_trans : forall a b c, In a l -> In b l -> In c l ->
      comp a b = false -> comp b a = false ->
      comp b c = false -> comp c b = false ->
      comp a c = false /\ comp c a = false
}.

(** What [std::sort] ensures: no element of the range compares less than an
    element before it. *)
Definition sorted_wrt (comp : A -> A -> bool) (l : list A) : Prop :=
  StronglySorted (fun a b => comp b a = false) l.

(** A sorting procedure that meets the contract: straight insertion. *)
Fixpoint insert (comp : A -> A -> bool) (v : A) (l : list A) : list A :=
  match l with
  | [] => [v]
  | w :: l' => if comp v w then v :: l else w :: insert comp v l'
  end.

Fixpoint insertion_sort (comp : A -> A -> bool) (l : list A) : list A :=
  match l with
  | [] => []
  | v :: l' => insert comp v (insertion_sort comp l')
  end.

End StdSortContract.

(** The contract of [std::sort(first, last, comp)], for a procedure given as a
    function from the range to the reordered range. *)
Definition std_sort_contract
    (sort : forall A : Type, (A -> A -> bool) -> list A -> list A) : Prop :=
  forall (A : Type) (comp : A -> A -> bool) (l : list A),
    strict_weak_order_on comp l ->
    Permutation (sort A comp l) l /\ sorted_wrt comp (sort A comp l).

(** ** Sums and interleavings *)

Section Interleavings.

Context {double : Type} `{DoubleArith double}.
Local Open Scope double_scope.

(** The sum a single thread computes: the radii added in view order. *)
Definition sequential_sum (st : state double) : double :=
  fold_left (fun s p => s + radius_at (curves st) p) (circles st)
            (radius_sum st).

(** The interleaving in which the threads run one after the other. *)
Definition serial_one (tid : nat) (todo : list nat) : list nat :=
  flat_map (fun _ => [tid; tid]) todo.

Fixpoint serial_from (tid : nat) (ths : list (thread double)) : list nat :=
  match ths with
  | [] => []
  | th :: ths' => serial_one tid (todo th) ++ serial_from (S tid) ths'
  end.

Definition serial_schedule (n : nat) : list nat :=
  concat (map (fun tid => serial_one tid (omp_static_chunk n num_threads tid))
              (seq 0 num_threads)).

(** With one iteration, only thread 0 has work; the region is in one of
    three shapes whatever the interleaving. *)
Inductive single_run (term : nat -> double) (s0 : double)
    : region double -> Prop :=
| single_start :
    single_run term s0
      (mkRegion s0 [mkThread [0%nat] None; mkThread [] None;
                    mkThread [] None; mkThread [] None])
| single_loaded :
    single_run term s0
      (mkRegion s0 [mkThread [0%nat] (Some s0); mkThread [] None;
                    mkThread [] None; mkThread [] None])
| single_stored :
    single_run term s0
      (mkRegion (s0 + term 0%nat)
                [mkThread [] None; mkThread [] None;
                 mkThread [] None; mkThread [] None]).

End Interleavings.

(** Thread 0 reads [radius_sum] for its first iteration, the other threads
    then run their blocks, and thread 0 resumes: its write puts back the value
    it had read, plus its own term. *)
Definition lossy_schedule (n : nat) : list nat :=
  [0] ++
  concat (map (fun tid => serial_one tid (omp_static_chunk n num_threads tid))
              (seq 1 (num_threads - 1))) ++
  [0] ++ serial_one 0 (tl (omp_static_chunk n num_threads 0)).

Section Inputs.

Local Open Scope R_scope.

(** ** The range of the random parameters *)

(** The range both real distributions are constructed with. *)
Definition in_range (v : R) : Prop := 1 / 10 <= v <= 100.

Definition params_in_range (o : object R) : Prop :=
  match o with
  | ObjCircle c => in_range (Circle_radius_ c)
  | ObjEllipse e => in_range (radius_x_ e) /\ in_range (radius_y_ e)
  | ObjHelix h => in_range (Helix_radius_ h) /\ in_range (step_ h)
  end.

(** The variant the [switch] builds for a value of the type draw. *)
Definition variant_of_draw (ty : Z) (o : object R) : Prop :=
  match o with
  | ObjCircle _ => ty = 1%Z
  | ObjEllipse _ => ty = 2%Z
  | ObjHelix _ => ty = 3%Z
  end.

(** ** Concrete inputs *)

(** The collection of the specification's worked scenario. *)
Definition scenario : list (object R) :=
  [ ObjCircle (mkCircle 3); ObjEllipse (mkEllipse 2 5);
    ObjHelix (mkHelix 4 6); ObjCircle (mkCircle 1) ].

Definition scenario_filtered : state R :=
  filter_step (mkState scenario [] 0).

(** A collection [main] can build: ten curves, every parameter within
    [[0.1, 100.0]], five of them Circles. *)
Definition sample_curves : list (object R) :=
  [ ObjCircle (mkCircle 3); ObjEllipse (mkEllipse 2 5);
    ObjHelix (mkHelix 4 6); ObjCircle (mkCircle 1);
    ObjCircle (mkCircle 5); ObjHelix (mkHelix 1 1);
    ObjCircle (mkCircle 2); ObjEllipse (mkEllipse 7 7);
    ObjCircle (mkCircle 4); ObjHelix (mkHelix 9 3) ].

(** An engine for the concrete run: a counter; the integer draws go round
    the range, the real draws return the lower bound. *)
Definition counter_int (a b : Z) (g : nat) : Z * nat :=
  ((a + Z.of_nat g mod (b - a + 1))%Z, S g).

Definition counter_real (a b : R) (g : nat) : R * nat := (a, S g).

End Inputs.

(** ** What a racing run can have added up *)

Section RaceNotions.

Context {double : Type} `{DoubleArith double}.
Local Open Scope double_scope.
Variable term : nat -> double.
Variable s0 : double.

(** [s0] with the terms of the iterations [S] added in that order. *)
Definition partial_sum (S : list nat) : double :=
  fold_left (fun s i => s + term i) S s0.

(** [v] is [s0] plus the terms of some of the iterations [D], each at most
    once. *)
Definition subsum (D : list nat) (v : double) : Prop :=
  exists S, NoDup S /\ incl S D /\ v = partial_sum S.

(** The invariant of the parallel loop over [n] iterations: the iterations
    already run ([D]) and those still to run are the [n] iterations, each
    once; [radius_sum] and every value a thread has read are sums over
    iterations already run. *)
Definition race_inv (n : nat) (r : region double) : Prop :=
  exists D,
    Permutation (D ++ concat (map todo (team r))) (seq 0 n) /\
    subsum D (shared_sum r) /\
    Forall (fun th => forall v, loaded th = Some v -> subsum D v) (team r).

End RaceNotions.

(** The sum of a list of reals. *)
Definition total (l : list R) : R := fold_right Rplus 0%R l.

(** The rise of a curve over one full turn of the parameter. *)
Definition pitch (o : object R) : R :=
  match o with
  | ObjHelix h => step_ h
  | _ => 0%R
  end.

(** The run-time variant of an object. *)
Inductive variant : Type := VCircle | VEllipse | VHelix.

Definition variant_of (double : Type) (o : object double) : variant :=
  match o with
  | ObjCircle _ => VCircle
  | ObjEllipse _ => VEllipse
  | ObjHelix _ => VHelix
  end.

(** A rendering of reals for the concrete runs: the text is not looked at. *)
Definition plain_text : DoubleText R :=
  {| to_string := fun _ => "r"%string; put_double := fun _ => "r"%string |}.

(** An engine whose integer draws are always the upper bound. *)
Definition top_int (a b : Z) (g : nat) : Z * nat := (b, S g).

(** The parameters of a curve are not negative. *)
Definition radii_nonneg (o : object R) : Prop :=
  match o with
  | ObjCircle c => (0 <= Circle_radius_ c)%R
  | ObjEllipse e => (0 <= radius_x_ e)%R /\ (0 <= radius_y_ e)%R
  | ObjHelix h => (0 <= Helix_radius_ h)%R
  end.

(** The collection the counter engine makes, and the state the parallel loop
    then starts from. *)
Definition counter_curves : list (object R) :=
  build_curves counter_int counter_real 0%nat.

Definition counter_view : state R :=
  sort_step insertion_sort (filter_step (mkState counter_curves [] (dlit 0))).

(** ** The collection as the specification words it: drawn slot by slot *)

(** The variant the [switch] of lines 126-136 selects for a value of the type
    draw. *)
Definition switch_variant (ty : Z) : variant :=
  match ty with
  | 1%Z => VCircle
  | 2%Z => VEllipse
  | _ => VHelix
  end.

Section Drawn.

Local Open Scope R_scope.
Variable G : Type.
Variable uniform_int_distribution : Z -> Z -> G -> Z * G.
Variable uniform_real_distribution : R -> R -> G -> R * G.

(** One slot, from engine state [mt] to [mt']: a draw [ty] of
    [uniform_int_distribution(1, 3)] selects the variant; then the
    parameters are draws of [uniform_real_distribution(0.1, 100.0)], each
    from the engine state the draw before it left, used as they come.  The
    two parameters of an Ellipse or a Helix are the two draws in either
    order, since C++ leaves the order of evaluation of the two arguments
    open. *)
Definition slot_drawn (mt : G) (o : object R) (mt' : G) : Prop :=
  exists ty mt1,
    uniform_int_distribution 1 3 mt = (ty, mt1) /\
    (1 <= ty <= 3)%Z /\
    variant_of o = switch_variant ty /\
    match o with
    | ObjCircle c =>
        exists r,
          uniform_real_distribution (1 / 10) 100 mt1 = (r, mt') /\
          in_range r /\ c = mkCircle r
    | ObjEllipse e =>
        exists d1 mt2 d2,
          uniform_real_distribution (1 / 10) 100 mt1 = (d1, mt2) /\
          uniform_real_distribution (1 / 10) 100 mt2 = (d2, mt') /\
          in_range d1 /\ in_range d2 /\
          (e = mkEllipse d1 d2 \/ e = mkEllipse d2 d1)
    | ObjHelix h =>
        exists d1 mt2 d2,
          uniform_real_distribution (1 / 10) 100 mt1 = (d1, mt2) /\
          uniform_real_distribution (1 / 10) 100 mt2 = (d2, mt') /\
          in_range d1 /\ in_range d2 /\
          (h = mkHelix d1 d2 \/ h = mkHelix d2 d1)
    end.

(** A collection drawn slot after slot, the engine handed from each slot to
    the next. *)
Inductive slots_drawn : G -> list (object R) -> G -> Prop :=
| drawn_nil (mt : G) : slots_drawn mt [] mt
| drawn_cons (mt mt1 mt2 : G) (o : object R) (cs : list (object R)) :
    slot_drawn mt o mt1 -> slots_drawn mt1 cs mt2 ->
    slots_drawn mt (o :: cs) mt2.

End Drawn.

(** * Part III: the properties *)

(** ** The curve formulas *)

Section CurveFormulas.

Context {double : Type} `{DoubleArith double}.
Local Open Scope double_scope.

(** The members of Circle, whatever the arithmetic: the three formulas of
    the class, and the same values through a [Curve*] (virtual call). *)
Lemma Circle_members (r t : double) :
  let c : Circle double := mkCircle r in
  point c t = mkPoint (r * dcos t) (r * dsin t) (dlit 0) /\
  derivative c t = mkPoint (- r * dsin t) (r * dcos t) (dlit 0) /\
  radius c = r /\
  point (ObjCircle c) t = point c t /\
  derivative (ObjCircle c) t = derivative c t /\
  radius (ObjCircle c) = radius c.
Proof. intros c. repeat split. Qed.

End CurveFormulas.

Section RealCurves.

Local Open Scope R_scope.

Lemma Q2R_0 : Q2R 0 = 0.
Proof. unfold Q2R; simpl; lra. Qed.

Lemma Q2R_2 : Q2R 2 = 2.
Proof. unfold Q2R; simpl; lra. Qed.

(** [operator<] on reals decides [<]. *)
Lemma dlt_R_true (a b : R) : dlt a b = true <-> a < b.
Proof.
  simpl. destruct (Rlt_dec a b); split; intros; try assumption;
    try reflexivity; try discriminate; contradiction.
Qed.

Lemma dlt_R_false (a b : R) : dlt a b = false <-> b <= a.
Proof.
  simpl. destruct (Rlt_dec a b); split; intros; try reflexivity;
    try discriminate; lra.
Qed.

Lemma std_max_Rmax (a b : R) : std_max a b = Rmax a b.
Proof.
  unfold std_max. destruct (dlt a b) eqn:E.
  - apply dlt_R_true in E. symmetry. apply Rmax_right. lra.
  - apply dlt_R_false in E. symmetry. apply Rmax_left. lra.
Qed.

(** C1.  For all reals [r], [t]: [Circle(r).point(t)] is
    [(r*cos t, r*sin t, 0)], [Circle(r).derivative(t)] is
    [(-r*sin t, r*cos t, 0)] and [Circle(r).radius()] is [r]; the same holds
    when the circle is reached through a [Curve*] (virtual call). *)
Theorem Circle_formulas (r t : R) :
  let c : Circle R := mkCircle r in
  point c t = mkPoint (r * cos t) (r * sin t) 0 /\
  derivative c t = mkPoint (- r * sin t) (r * cos t) 0 /\
  radius c = r /\
  point (ObjCircle c) t = point c t /\
  derivative (ObjCircle c) t = derivative c t /\
  radius (ObjCircle c) = radius c.
Proof.
  intros c. destruct (Circle_members r t) as (Hp & Hd & Hr & Hvp & Hvd & Hvr).
  fold c in Hp, Hd, Hr, Hvp, Hvd, Hvr.
  simpl dlit in Hp, Hd. rewrite Q2R_0 in Hp, Hd.
  repeat split; assumption.
Qed.

(** C2.  For all reals [rx], [ry], [t]: [Ellipse(rx, ry).point(t)] is
    [(rx*cos t, ry*sin t, 0)], [Ellipse(rx, ry).derivative(t)] is
    [(-rx*sin t, ry*cos t, 0)] and [Ellipse(rx, ry).radius()] is
    [max(rx, ry)]. *)
Theorem Ellipse_formulas (rx ry t : R) :
  let e : Ellipse R := mkEllipse rx ry in
  point e t = mkPoint (rx * cos t) (ry * sin t) 0 /\
  derivative e t = mkPoint (- rx * sin t) (ry * cos t) 0 /\
  radius e = Rmax rx ry.
Proof.
  intros e. repeat split.
  - simpl. now rewrite Q2R_0.
  - simpl. now rewrite Q2R_0.
  - simpl. apply std_max_Rmax.
Qed.

(** C3.  For all reals [r], [step], [t]: [Helix(r, step).point(t)] is
    [(r*cos t, r*sin t, step*t/(2*pi))], whose z-coordinate is linear in [t]
    with slope [step/(2*pi)] and whose x and y are those of [Circle(r)] at the
    same [t]; [Helix(r, step).derivative(t)] is
    [(-r*sin t, r*cos t, step/(2*pi))] and [Helix(r, step).radius()] is [r]. *)
Theorem Helix_formulas (r step t : R) :
  let h : Helix R := mkHelix r step in
  point h t = mkPoint (r * cos t) (r * sin t) (step * t / (2 * PI)) /\
  z (point h t) = step / (2 * PI) * t /\
  (forall t' : R,
      z (point h t') - z (point h t) = step / (2 * PI) * (t' - t)) /\
  x (point h t) = x (point (mkCircle r) t) /\
  y (point h t) = y (point (mkCircle r) t) /\
  derivative h t = mkPoint (- r * sin t) (r * cos t) (step / (2 * PI)) /\
  radius h = r.
Proof.
  pose proof PI_neq0 as Hpi. intros h.
  repeat split; simpl; rewrite ?Q2R_2; try reflexivity.
  - field; assumption.
  - intros t'. field; assumption.
Qed.

Lemma sqrt_circle (r c s : R) :
  c * c + s * s = 1 -> sqrt (r * c * (r * c) + r * s * (r * s)) = Rabs r.
Proof.
  intros Hcs.
  replace (r * c * (r * c) + r * s * (r * s)) with (Rsqr r)
    by (unfold Rsqr; nra).
  apply sqrt_Rsqr_abs.
Qed.

Lemma cos2_sin2_1 (t : R) : cos t * cos t + sin t * sin t = 1.
Proof. pose proof (sin2_cos2 t) as E. unfold Rsqr in E. lra. Qed.

Lemma Circle_xy_distance (r t : R) :
  xy_distance (point (mkCircle r) t) = Rabs r.
Proof.
  unfold xy_distance; simpl. apply sqrt_circle, cos2_sin2_1.
Qed.

Lemma Circle_derivative_magnitude (r t : R) :
  magnitude (derivative (mkCircle r) t) = Rabs r.
Proof.
  pose proof (cos2_sin2_1 t) as Hcs.
  unfold magnitude, dot; simpl. rewrite Q2R_0.
  replace (- r * sin t * (- r * sin t) + r * cos t * (r * cos t) + 0 * 0)
    with (r * sin t * (r * sin t) + r * cos t * (r * cos t)) by ring.
  apply sqrt_circle. lra.
Qed.

(** C8, as amended.  For every real [t] and every [Circle(r)]: [point(t)]
    lies at distance [|r|] from the origin in the xy-plane, [derivative(t)]
    is orthogonal to [point(t)] and has magnitude [|r|]; the distance and the
    magnitude are [r] itself when [r >= 0]. *)
Theorem Circle_geometry (r t : R) :
  xy_distance (point (mkCircle r) t) = Rabs r /\
  dot (derivative (mkCircle r) t) (point (mkCircle r) t) = 0 /\
  magnitude (derivative (mkCircle r) t) = Rabs r /\
  (0 <= r ->
   xy_distance (point (mkCircle r) t) = r /\
   magnitude (derivative (mkCircle r) t) = r).
Proof.
  split; [apply Circle_xy_distance |].
  split; [unfold dot; simpl; rewrite Q2R_0; ring |].
  split; [apply Circle_derivative_magnitude |].
  intros Hr. rewrite Circle_xy_distance, Circle_derivative_magnitude.
  split; apply Rabs_right; lra.
Qed.

Lemma Circle_geometry_witness :
  0 <= 2 /\
  xy_distance (point (mkCircle 2) 0) = 2 /\
  magnitude (derivative (mkCircle 2) 0) = 2.
Proof.
  split; [lra | apply (Circle_geometry 2 0); lra].
Defined.

(** C8 as stated fails for a negative radius, which the constructor accepts:
    [Circle(-1).point(0)] is [(-1, 0, 0)], at distance [1] and not [-1]. *)
Lemma Circle_distance_negative_radius :
  point (mkCircle (-1)) 0 = mkPoint (-1) 0 0 /\
  xy_distance (point (mkCircle (-1)) 0) = 1 /\
  xy_distance (point (mkCircle (-1)) 0) <> -1.
Proof.
  assert (Hd : xy_distance (point (mkCircle (-1)) 0) = 1).
  { rewrite Circle_xy_distance. rewrite Rabs_left; lra. }
  repeat split.
  - simpl. rewrite cos_0, sin_0, Q2R_0. f_equal; ring.
  - exact Hd.
  - rewrite Hd. lra.
Qed.

Lemma derivable_pt_lim_scal_cos (a t : R) :
  derivable_pt_lim (fun u => a * cos u) t (- a * sin t).
Proof.
  replace (- a * sin t) with (a * - sin t) by ring.
  apply (derivable_pt_lim_scal cos a t), derivable_pt_lim_cos.
Qed.

Lemma derivable_pt_lim_scal_sin (a t : R) :
  derivable_pt_lim (fun u => a * sin u) t (a * cos t).
Proof. apply (derivable_pt_lim_scal sin a t), derivable_pt_lim_sin. Qed.

Lemma derivable_pt_lim_zero (c t : R) :
  derivable_pt_lim (fun _ => c) t (Q2R 0).
Proof. rewrite Q2R_0. apply (derivable_pt_lim_const c t). Qed.

Lemma derivable_pt_lim_linear (s c t : R) :
  c <> 0 -> derivable_pt_lim (fun u => s * u / c) t (s / c).
Proof.
  intros Hc eps Heps. exists (mkposreal 1 Rlt_0_1). intros h Hh _.
  replace ((s * (t + h) / c - s * t / c) / h - s / c) with 0
    by (field; split; assumption).
  now rewrite Rabs_R0.
Qed.

(** X1.  Over the reals, [derivative(t)] is the derivative of [point] at [t],
    coordinate by coordinate, for each of the three variants and through the
    virtual call. *)
Theorem derivative_is_tangent (o : object R) (t : R) :
  tangent_of (point o) t (derivative o t).
Proof.
  assert (Hc : Q2R 2 * PI <> 0).
  { rewrite Q2R_2. pose proof PI_neq0. lra. }
  destruct o as [c | e | h]; unfold tangent_of; simpl; repeat split;
    try apply derivable_pt_lim_scal_cos;
    try apply derivable_pt_lim_scal_sin;
    try apply derivable_pt_lim_zero.
  apply derivable_pt_lim_linear; exact Hc.
Qed.

(** X2.  For all reals [t] and every [Ellipse(rx, ry)] with non-zero radii,
    [point(t)] satisfies [(x/rx)^2 + (y/ry)^2 = 1]. *)
Theorem Ellipse_equation (rx ry t : R) :
  rx <> 0 -> ry <> 0 ->
  let p : Point R := point (mkEllipse rx ry) t in
  (x p / rx) * (x p / rx) + (y p / ry) * (y p / ry) = 1.
Proof.
  intros Hx Hy p. subst p. simpl.
  replace (rx * cos t / rx) with (cos t) by (field; assumption).
  replace (ry * sin t / ry) with (sin t) by (field; assumption).
  apply cos2_sin2_1.
Qed.

Lemma Ellipse_equation_witness :
  let p : Point R := point (mkEllipse 2 5) 0 in
  (x p / 2) * (x p / 2) + (y p / 5) * (y p / 5) = 1.
Proof. apply (Ellipse_equation (rx := 2) (ry := 5) 0); lra. Defined.

End RealCurves.

(** ** The filter step *)

Section Filter.

Context {double : Type} `{DoubleArith double}.

Lemma filter_loop_spec (rest : list (object double)) :
  forall p acc, filter_loop p rest acc = acc ++ Circle_positions p rest.
Proof.
  induction rest as [|o rest IH]; intros p acc; simpl.
  - now rewrite app_nil_r.
  - rewrite IH. destruct o; simpl; try reflexivity.
    now rewrite <- app_assoc.
Qed.

Lemma filter_circles_spec (cs : list (object double)) :
  filter_circles cs = Circle_positions 0 cs.
Proof. unfold filter_circles. now rewrite filter_loop_spec. Qed.

Lemma Circle_positions_In (l : list (object double)) :
  forall p q,
    In q (Circle_positions p l) <->
    exists i c, q = p + i /\ nth_error l i = Some (ObjCircle c).
Proof.
  induction l as [|o l IH]; intros p q; simpl.
  - split; [tauto | intros (i & c & _ & E); destruct i; discriminate].
  - assert (Hrest : In q (Circle_positions (S p) l) <->
                    exists i c,
                      q = p + S i /\ nth_error l i = Some (ObjCircle c)).
    { rewrite IH. split; intros (i & c & E & N); exists i, c; split;
        try assumption; lia. }
    destruct o as [c0|e0|h0]; simpl.
    + split.
      * intros [E | Hin].
        -- exists 0, c0. split; [lia | reflexivity].
        -- apply Hrest in Hin. destruct Hin as (i & c & E & N).
           exists (S i), c. split; assumption.
      * intros (i & c & E & N). destruct i as [|i].
        -- left; lia.
        -- right. apply Hrest. exists i, c. split; assumption.
    + rewrite Hrest. split; intros (i & c & E & N).
      * exists (S i), c. split; assumption.
      * destruct i as [|i]; [discriminate |]. exists i, c. split; assumption.
    + rewrite Hrest. split; intros (i & c & E & N).
      * exists (S i), c. split; assumption.
      * destruct i as [|i]; [discriminate |]. exists i, c. split; assumption.
Qed.

Lemma Circle_positions_ge (l : list (object double)) :
  forall p, Forall (fun q => p <= q) (Circle_positions p l).
Proof.
  induction l as [|o l IH]; intros p; simpl; [constructor |].
  assert (Hr : Forall (fun q => p <= q) (Circle_positions (S p) l)).
  { eapply Forall_impl; [| apply IH]. simpl; intros; lia. }
  destruct (is_Circle o); [constructor; [lia | exact Hr] | exact Hr].
Qed.

Lemma Circle_positions_sorted (l : list (object double)) :
  forall p, StronglySorted lt (Circle_positions p l).
Proof.
  induction l as [|o l IH]; intros p; simpl; [constructor |].
  destruct (is_Circle o); [| apply IH].
  constructor; [apply IH |].
  eapply Forall_impl; [| apply (Circle_positions_ge l (S p))].
  simpl; intros; lia.
Qed.

Lemma Circle_positions_length (l : list (object double)) :
  forall p, length (Circle_positions p l) = length (filter is_Circle l).
Proof.
  induction l as [|o l IH]; intros p; simpl; [reflexivity |].
  destruct (is_Circle o); simpl; now rewrite IH.
Qed.

Lemma radius_at_app (pre : list (object double)) o post :
  radius_at (pre ++ o :: post) (length pre) = radius o.
Proof.
  unfold radius_at. rewrite nth_error_app2 by lia.
  now rewrite Nat.sub_diag.
Qed.

Lemma Circle_positions_radii (l : list (object double)) :
  forall pre,
    map (radius_at (pre ++ l)) (Circle_positions (length pre) l) =
    constructed_radii l.
Proof.
  induction l as [|o l IH]; intros pre; simpl; [reflexivity |].
  assert (Hrest : map (radius_at (pre ++ o :: l))
                      (Circle_positions (S (length pre)) l) =
                  constructed_radii l).
  { specialize (IH (pre ++ [o])).
    rewrite <- app_assoc, length_app in IH. simpl in IH.
    rewrite Nat.add_1_r in IH. exact IH. }
  destruct o as [c|e|h]; simpl; try exact Hrest.
  rewrite radius_at_app. simpl. now rewrite Hrest.
Qed.

(** Every pointer the filter stores is valid and points to a Circle. *)
Lemma filter_loop_valid (cs : list (object double)) :
  Forall (fun p => exists c, nth_error cs p = Some (ObjCircle c))
         (filter_circles cs).
Proof.
  apply Forall_forall. intros p Hin.
  rewrite filter_circles_spec in Hin.
  apply Circle_positions_In in Hin. destruct Hin as (i & c & E & N).
  exists c. now subst.
Qed.

(** C4.  For every collection, the filter step leaves the collection and the
    sum untouched and makes the subview hold exactly the positions of the
    entries whose run-time variant is Circle (no Ellipse, however equal its
    radii, and no Helix), each once and in collection order; its size is the
    number of Circle entries and the [radius()] values read through it are the
    values the Circles were constructed with. *)
Theorem filter_step_correct (st : state double) :
  curves (filter_step st) = curves st /\
  radius_sum (filter_step st) = radius_sum st /\
  circles (filter_step st) = filter_circles (curves st) /\
  filter_circles (curves st) = Circle_positions 0 (curves st) /\
  (forall p, In p (filter_circles (curves st)) <->
             exists c, nth_error (curves st) p = Some (ObjCircle c)) /\
  (forall p e, nth_error (curves st) p = Some (ObjEllipse e) ->
               ~ In p (filter_circles (curves st))) /\
  (forall p h, nth_error (curves st) p = Some (ObjHelix h) ->
               ~ In p (filter_circles (curves st))) /\
  StronglySorted lt (filter_circles (curves st)) /\
  length (filter_circles (curves st)) = length (filter is_Circle (curves st)) /\
  map (radius_at (curves st)) (filter_circles (curves st)) =
    constructed_radii (curves st).
Proof.
  assert (Hin : forall p,
             In p (filter_circles (curves st)) <->
             exists c, nth_error (curves st) p = Some (ObjCircle c)).
  { intros p. rewrite filter_circles_spec, Circle_positions_In. split.
    - intros (i & c & E & N). exists c. now subst.
    - intros (c & N). exists p, c. split; [reflexivity | exact N]. }
  repeat split.
  - apply filter_circles_spec.
  - apply Hin.
  - apply Hin.
  - intros p e N Hp. apply Hin in Hp. destruct Hp as (c & N'). congruence.
  - intros p h N Hp. apply Hin in Hp. destruct Hp as (c & N'). congruence.
  - rewrite filter_circles_spec. apply Circle_positions_sorted.
  - rewrite filter_circles_spec. apply Circle_positions_length.
  - rewrite filter_circles_spec. apply (Circle_positions_radii (curves st) []).
Qed.

(** C10.  [Ellipse(r, r)] and [Circle(r)] agree on the public interface:
    same [point(t)], same [derivative(t)], and [radius()] is [r] for both;
    yet the cast used by the filter fails on such an Ellipse, and so its
    position never enters the Circle subview. *)
Theorem Ellipse_equal_radii_is_Circle_like (r t : double) :
  point (mkEllipse r r) t = point (mkCircle r) t /\
  derivative (mkEllipse r r) t = derivative (mkCircle r) t /\
  radius (mkEllipse r r) = radius (mkCircle r) /\
  radius (mkCircle r) = r /\
  dynamic_cast_Circle (ObjEllipse (mkEllipse r r)) = None /\
  (forall pre post : list (object double),
      existsb (Nat.eqb (length pre))
              (filter_circles (pre ++ ObjEllipse (mkEllipse r r) :: post))
      = false).
Proof.
  repeat split.
  - simpl. unfold std_max. now destruct (dlt r r).
  - intros pre post.
    destruct (existsb _ _) eqn:E; [| reflexivity].
    apply existsb_exists in E. destruct E as (q & Hin & Eq).
    apply Nat.eqb_eq in Eq. subst q.
    rewrite filter_circles_spec in Hin.
    apply Circle_positions_In in Hin. destruct Hin as (i & c & Ei & N).
    simpl in Ei. subst i.
    rewrite nth_error_app2 in N by lia. rewrite Nat.sub_diag in N.
    discriminate.
Qed.

End Filter.

(** ** The sort step *)

Section InsertionSort.

Variable A : Type.

Lemma strict_weak_order_on_incl (comp : A -> A -> bool) (l l' : list A) :
  incl l' l -> strict_weak_order_on comp l -> strict_weak_order_on comp l'.
Proof.
  intros Hi [Hirr Htr Heq]. split.
  - intros a Ha. apply Hirr. now apply Hi.
  - intros a b c Ha Hb Hc. apply Htr; now apply Hi.
  - intros a b c Ha Hb Hc. apply Heq; now apply Hi.
Qed.

Lemma strict_weak_order_on_asym (comp : A -> A -> bool) (l : list A) :
  strict_weak_order_on comp l ->
  forall a b, In a l -> In b l -> comp a b = true -> comp b a = false.
Proof.
  intros [Hirr Htr _] a b Ha Hb Hab.
  destruct (comp b a) eqn:Hba; [| reflexivity].
  rewrite <- (Hirr a Ha). symmetry. now apply (Htr a b a).
Qed.

Lemma insert_perm (comp : A -> A -> bool) (v : A) (l : list A) :
  Permutation (insert comp v l) (v :: l).
Proof.
  induction l as [|w l IH]; simpl; [reflexivity |].
  destruct (comp v w); [reflexivity |].
  rewrite IH. apply perm_swap.
Qed.

Lemma insertion_sort_perm (comp : A -> A -> bool) (l : list A) :
  Permutation (insertion_sort comp l) l.
Proof.
  induction l as [|v l IH]; simpl; [reflexivity |].
  rewrite insert_perm. now constructor.
Qed.

Lemma insert_sorted (comp : A -> A -> bool) (v : A) (l : list A) :
  strict_weak_order_on comp (v :: l) ->
  sorted_wrt comp l -> sorted_wrt comp (insert comp v l).
Proof.
  unfold sorted_wrt.
  induction l as [|w l IH]; intros Hswo Hs; simpl.
  - constructor; constructor.
  - inversion Hs as [|w' l' Hs' Hall]; subst.
    destruct (comp v w) eqn:E.
    + constructor; [exact Hs |]. constructor.
      * apply (strict_weak_order_on_asym Hswo); simpl; auto.
      * rewrite Forall_forall in *. intros b Hb.
        destruct (comp b v) eqn:Ebv; [| reflexivity].
        rewrite <- (Hall b Hb). symmetry.
        apply (swo_trans Hswo b v w); simpl; auto.
    + constructor.
      * apply IH; [| exact Hs'].
        eapply strict_weak_order_on_incl; [| exact Hswo].
        intros a [Ha | Ha]; simpl; auto.
      * rewrite Forall_forall in *. intros b Hb.
        apply (Permutation_in _ (insert_perm comp v l)) in Hb.
        destruct Hb as [Hb | Hb]; [now subst | now apply Hall].
Qed.

Lemma insertion_sort_sorted (comp : A -> A -> bool) (l : list A) :
  strict_weak_order_on comp l -> sorted_wrt comp (insertion_sort comp l).
Proof.
  induction l as [|v l IH]; intros Hswo; simpl.
  - constructor.
  - apply insert_sorted.
    + eapply strict_weak_order_on_incl; [| exact Hswo].
      intros a [Ha | Ha]; [now left | right].
      now apply (Permutation_in _ (insertion_sort_perm comp l)).
    + apply IH. eapply strict_weak_order_on_incl; [| exact Hswo].
      intros a Ha; now right.
Qed.

End InsertionSort.

Lemma strict_weak_order_on_nil (A : Type) (comp : A -> A -> bool) :
  strict_weak_order_on comp [].
Proof. split; simpl; intros; contradiction. Qed.

Lemma insertion_sort_contract : std_sort_contract insertion_sort.
Proof.
  intros A comp l Hswo. split.
  - apply insertion_sort_perm.
  - now apply insertion_sort_sorted.
Qed.

Section SortCorrect.

Local Open Scope R_scope.

Lemma by_radius_swo (cs : list (object R)) (l : list ptr) :
  strict_weak_order_on (by_radius cs) l.
Proof.
  unfold by_radius. split.
  - intros a _. apply dlt_R_false. lra.
  - intros a b c _ _ _ Hab Hbc.
    apply dlt_R_true in Hab, Hbc. apply dlt_R_true. lra.
  - intros a b c _ _ _ H1 H2 H3 H4.
    apply dlt_R_false in H1, H2, H3, H4.
    split; apply dlt_R_false; lra.
Qed.

Lemma sorted_wrt_by_radius (cs : list (object R)) (l : list ptr) :
  sorted_wrt (by_radius cs) l <->
  StronglySorted Rle (map (radius_at cs) l).
Proof.
  unfold sorted_wrt, by_radius.
  induction l as [|a l IH]; simpl.
  - split; constructor.
  - split; intros Hs; inversion Hs as [|a' l' Hs' Hall]; subst;
      (constructor; [now apply IH |]).
    + rewrite Forall_map. eapply Forall_impl; [| exact Hall].
      simpl. intros b Hb. now apply dlt_R_false in Hb.
    + rewrite Forall_map in Hall. eapply Forall_impl; [| exact Hall].
      simpl. intros b Hb. now apply dlt_R_false.
Qed.

(** Two non-decreasing sequences with the same elements are the same
    sequence. *)
Lemma StronglySorted_Rle_unique (l1 : list R) :
  forall l2, StronglySorted Rle l1 -> StronglySorted Rle l2 ->
             Permutation l1 l2 -> l1 = l2.
Proof.
  induction l1 as [|a l1 IH]; intros l2 S1 S2 P.
  - apply Permutation_nil in P. now subst.
  - destruct l2 as [|b l2].
    { apply Permutation_sym, Permutation_nil in P. discriminate. }
    inversion S1 as [|? ? S1' F1]; subst.
    inversion S2 as [|? ? S2' F2]; subst.
    rewrite Forall_forall in F1, F2.
    assert (Hab : a = b).
    { assert (Ha : In a (b :: l2))
        by (apply (Permutation_in _ P); now left).
      assert (Hb : In b (a :: l1))
        by (apply (Permutation_in _ (Permutation_sym P)); now left).
      destruct Ha as [Ha | Ha]; [now subst |].
      destruct Hb as [Hb | Hb]; [now subst |].
      apply F2 in Ha. apply F1 in Hb. lra. }
    subst b. f_equal. apply IH; try assumption.
    now apply Permutation_cons_inv in P.
Qed.

Variable std_sort : forall A : Type, (A -> A -> bool) -> list A -> list A.
Hypothesis std_sort_ok : std_sort_contract std_sort.

Lemma sort_step_perm (st : state R) :
  Permutation (circles (sort_step std_sort st)) (circles st).
Proof. simpl. apply std_sort_ok, by_radius_swo. Qed.

Lemma sort_step_sorted (st : state R) :
  StronglySorted Rle
    (map (radius_at (curves st)) (circles (sort_step std_sort st))).
Proof.
  simpl. apply sorted_wrt_by_radius. apply std_sort_ok, by_radius_swo.
Qed.

Lemma sort_step_sorted_radii (st : state R) :
  StronglySorted Rle (map (radius_at (curves st)) (circles st)) ->
  map (radius_at (curves st)) (circles (sort_step std_sort st)) =
  map (radius_at (curves st)) (circles st).
Proof.
  intros Hs. apply StronglySorted_Rle_unique.
  - apply sort_step_sorted.
  - exact Hs.
  - apply Permutation_map, sort_step_perm.
Qed.

(** C5.  For every Circle subview and every [std::sort] that meets its
    contract: the sort step writes only the view (the collection and the sum
    are as before), the view holds the same references in some order, the
    [radius()] values read through it are non-decreasing, sorting a view
    whose radii are already non-decreasing leaves the radius sequence as it
    is, and so does sorting a second time. *)
Theorem sort_step_correct (st : state R) :
  curves (sort_step std_sort st) = curves st /\
  radius_sum (sort_step std_sort st) = radius_sum st /\
  Permutation (circles (sort_step std_sort st)) (circles st) /\
  StronglySorted Rle
    (map (radius_at (curves st)) (circles (sort_step std_sort st))) /\
  (StronglySorted Rle (map (radius_at (curves st)) (circles st)) ->
   map (radius_at (curves st)) (circles (sort_step std_sort st)) =
   map (radius_at (curves st)) (circles st)) /\
  map (radius_at (curves st))
      (circles (sort_step std_sort (sort_step std_sort st))) =
  map (radius_at (curves st)) (circles (sort_step std_sort st)).
Proof.
  split; [reflexivity |]. split; [reflexivity |].
  split; [apply sort_step_perm |].
  split; [apply sort_step_sorted |].
  split; [apply sort_step_sorted_radii |].
  apply (sort_step_sorted_radii (sort_step std_sort st)).
  exact (sort_step_sorted st).
Qed.

End SortCorrect.

(** ** Runs of the parallel loop *)

Lemma seq_four_blocks (a b c d : nat) :
  seq 0 a ++ seq a b ++ seq (a + b) c ++ seq (a + b + c) d =
  seq 0 (a + b + c + d).
Proof.
  rewrite (seq_app (a + b + c) d 0), (seq_app (a + b) c 0), (seq_app a b 0).
  simpl. now rewrite <- !app_assoc.
Qed.

Ltac seq_blocks :=
  repeat (apply f_equal2; [f_equal; lia |]);
  f_equal; lia.

(** The blocks of the four threads, in thread order, are the iterations in
    loop order. *)
Lemma omp_static_chunks_cover (n : nat) :
  concat (map (omp_static_chunk n num_threads) (seq 0 num_threads)) = seq 0 n.
Proof.
  unfold num_threads, omp_static_chunk.
  pose proof (Nat.div_mod_eq n 4) as E.
  pose proof (Nat.mod_upper_bound n 4 ltac:(lia)) as B.
  remember (n / 4) as q eqn:Hq. remember (n mod 4) as t eqn:Ht.
  clear Hq Ht. cbv zeta. simpl map. simpl concat.
  rewrite app_nil_r.
  destruct t as [|[|[|[|t]]]]; [| | | | lia]; cbn [Nat.ltb Nat.leb].
  - replace n with (q + q + q + q) by lia.
    rewrite <- seq_four_blocks. seq_blocks.
  - replace n with ((q + 1) + q + q + q) by lia.
    rewrite <- seq_four_blocks. seq_blocks.
  - replace n with ((q + 1) + (q + 1) + q + q) by lia.
    rewrite <- seq_four_blocks. seq_blocks.
  - replace n with ((q + 1) + (q + 1) + (q + 1) + q) by lia.
    rewrite <- seq_four_blocks. seq_blocks.
Qed.

Lemma omp_static_chunk_0 (n : nat) :
  1 <= n ->
  exists k, omp_static_chunk n num_threads 0 = 0 :: seq 1 k /\ S k <= n /\
            (2 <= n -> S k < n).
Proof.
  intros Hn. unfold omp_static_chunk, num_threads.
  pose proof (Nat.div_mod_eq n 4) as E.
  pose proof (Nat.mod_upper_bound n 4 ltac:(lia)) as B.
  remember (n / 4) as q eqn:Hq. remember (n mod 4) as t eqn:Ht.
  clear Hq Ht. cbv zeta.
  destruct t as [|t]; cbn [Nat.ltb Nat.leb].
  - destruct q as [|q]; [lia |]. exists q.
    replace (S q * 0 + 0) with 0 by lia. simpl. repeat split; lia.
  - exists q. replace ((q + 1) * 0) with 0 by lia.
    replace (q + 1) with (S q) by lia. simpl. repeat split; lia.
Qed.

Section ParallelLoopRuns.

Context {double : Type} `{DoubleArith double}.
Local Open Scope double_scope.

Lemma nth_error_middle (A : Type) (pre : list A) a post :
  nth_error (pre ++ a :: post) (length pre) = Some a.
Proof. rewrite nth_error_app2 by lia. now rewrite Nat.sub_diag. Qed.

Lemma set_nth_middle (A : Type) (pre : list A) a v post :
  set_nth (length pre) v (pre ++ a :: post) = pre ++ v :: post.
Proof. induction pre as [|b pre IH]; simpl; [reflexivity | now rewrite IH]. Qed.

Lemma omp_run_app (term : nat -> double) s1 s2 r :
  omp_run term (s1 ++ s2) r = omp_run term s2 (omp_run term s1 r).
Proof. unfold omp_run. apply fold_left_app. Qed.

Lemma omp_run_cons (term : nat -> double) tid sched r :
  omp_run term (tid :: sched) r = omp_run term sched (omp_step term r tid).
Proof. reflexivity. Qed.

Lemma omp_step_load (term : nat -> double) sum pre i rest post :
  omp_step term (mkRegion sum (pre ++ mkThread (i :: rest) None :: post))
           (length pre) =
  mkRegion sum (pre ++ mkThread (i :: rest) (Some sum) :: post).
Proof.
  unfold omp_step. simpl team. rewrite nth_error_middle. simpl.
  now rewrite set_nth_middle.
Qed.

Lemma omp_step_store (term : nat -> double) sum pre i rest v post :
  omp_step term (mkRegion sum (pre ++ mkThread (i :: rest) (Some v) :: post))
           (length pre) =
  mkRegion (v + term i) (pre ++ mkThread rest None :: post).
Proof.
  unfold omp_step. simpl team. rewrite nth_error_middle. simpl.
  now rewrite set_nth_middle.
Qed.

Lemma omp_step_load_head (term : nat -> double) sum i rest post :
  omp_step term (mkRegion sum (mkThread (i :: rest) None :: post)) 0 =
  mkRegion sum (mkThread (i :: rest) (Some sum) :: post).
Proof. reflexivity. Qed.

Lemma omp_step_store_head (term : nat -> double) sum i rest v post :
  omp_step term (mkRegion sum (mkThread (i :: rest) (Some v) :: post)) 0 =
  mkRegion (v + term i) (mkThread rest None :: post).
Proof. reflexivity. Qed.

(** One thread running its block alone adds its terms in order. *)
Lemma serial_one_run (term : nat -> double) (work : list nat) :
  forall sum pre post,
    omp_run term (serial_one (length pre) work)
            (mkRegion sum (pre ++ mkThread work None :: post)) =
    mkRegion (fold_left (fun s i => s + term i) work sum)
             (pre ++ mkThread [] None :: post).
Proof.
  induction work as [|i work IH]; intros sum pre post; [reflexivity |].
  simpl serial_one. unfold omp_run. simpl fold_left.
  rewrite omp_step_load, omp_step_store.
  apply IH.
Qed.

Lemma serial_from_run (term : nat -> double) (ths : list (thread double)) :
  Forall (fun th => loaded th = None) ths ->
  forall sum pre,
    omp_run term (serial_from (length pre) ths) (mkRegion sum (pre ++ ths)) =
    mkRegion (fold_left (fun s i => s + term i) (concat (map todo ths)) sum)
             (pre ++ map (fun _ => mkThread [] None) ths).
Proof.
  induction 1 as [|th ths Hth _ IH]; intros sum pre; [reflexivity |].
  destruct th as [work ld]. simpl in Hth. subst ld.
  simpl serial_from. rewrite omp_run_app, serial_one_run.
  simpl. rewrite fold_left_app.
  specialize (IH (fold_left (fun s i => s + term i) work sum)
                 (pre ++ [mkThread [] None])).
  rewrite length_app, Nat.add_1_r, <- !app_assoc in IH.
  exact IH.
Qed.

Lemma fold_left_seq_nth (B : Type) (f : double -> B -> double) (d : B)
    (l : list B) :
  forall pre s,
    fold_left (fun s i => f s (nth i (pre ++ l) d))
              (seq (length pre) (length l)) s =
    fold_left f l s.
Proof.
  induction l as [|a l IH]; intros pre s; [reflexivity |].
  simpl. rewrite app_nth2 by lia. rewrite Nat.sub_diag. simpl.
  specialize (IH (pre ++ [a]) (f s a)).
  rewrite <- app_assoc, length_app, Nat.add_1_r in IH. exact IH.
Qed.

Lemma omp_team_loaded (n : nat) :
  Forall (fun th : thread double => loaded th = None) (omp_team n).
Proof. unfold omp_team. apply Forall_map. apply Forall_forall. reflexivity. Qed.

Lemma omp_team_todo (n : nat) :
  concat (map todo (omp_team (double := double) n)) = seq 0 n.
Proof.
  unfold omp_team. rewrite map_map. simpl todo.
  apply omp_static_chunks_cover.
Qed.

Lemma finished_all_done (A : Type) (sum : double) (l : list A) :
  finished (mkRegion sum (map (fun _ => mkThread [] None) l)) = true.
Proof. unfold finished; simpl. induction l; simpl; auto. Qed.

(** The parallel loop can always run to its barrier, and when the threads
    happen to run one after the other the result is the sequential sum. *)
Lemma reduce_step_serial (st : state double) :
  reduce_step (serial_schedule (length (circles st))) st =
  Some (mkState (curves st) (circles st) (sequential_sum st)).
Proof.
  unfold reduce_step.
  change (serial_schedule (length (circles st)))
    with (serial_from 0 (omp_team (double := double) (length (circles st)))).
  pose proof (serial_from_run (loop_term st)
                (omp_team_loaded (length (circles st)))
                (radius_sum st) []) as E.
  cbn [length app] in E. rewrite E. rewrite finished_all_done.
  cbn [shared_sum].
  rewrite omp_team_todo. unfold loop_term, sequential_sum.
  now rewrite (fold_left_seq_nth (fun s p => s + radius_at (curves st) p)
                                 0%nat (circles st) [] (radius_sum st)).
Qed.

(** A thread at the barrier does not move. *)
Lemma omp_step_finished (term : nat -> double) (r : region double) tid :
  finished r = true -> omp_step term r tid = r.
Proof.
  unfold finished, omp_step. intros Hf.
  destruct (nth_error (team r) tid) as [th|] eqn:E; [| reflexivity].
  apply nth_error_In in E.
  rewrite forallb_forall in Hf. specialize (Hf th E).
  unfold thread_done in Hf. now destruct (todo th).
Qed.

Lemma omp_run_finished (term : nat -> double) sched (r : region double) :
  finished r = true -> omp_run term sched r = r.
Proof.
  intros Hf. unfold omp_run.
  induction sched as [|tid sched IH]; simpl; [reflexivity |].
  now rewrite omp_step_finished.
Qed.

(** With no iteration to run, every interleaving leaves [radius_sum] as it
    was. *)
Lemma reduce_step_empty (sched : list nat) (st : state double) :
  circles st = [] ->
  reduce_step sched st = Some (mkState (curves st) [] (radius_sum st)).
Proof.
  intros E. unfold reduce_step. rewrite E. simpl length.
  rewrite omp_run_finished by reflexivity. reflexivity.
Qed.

Lemma single_run_step (term : nat -> double) s0 r tid :
  single_run term s0 r -> single_run term s0 (omp_step term r tid).
Proof.
  intros Hr.
  destruct tid as [|[|[|[|tid]]]]; destruct Hr; cbn; try constructor;
    destruct tid; cbn; constructor.
Qed.

Lemma single_run_all (term : nat -> double) s0 sched :
  forall r, single_run term s0 r -> single_run term s0 (omp_run term sched r).
Proof.
  unfold omp_run. induction sched as [|tid sched IH]; intros r Hr; simpl.
  - exact Hr.
  - apply IH. now apply single_run_step.
Qed.

(** X4.  With a single Circle in the subview, every interleaving that
    reaches the barrier leaves the sequential sum in [radius_sum]. *)
Theorem reduce_step_single (sched : list nat) (st st' : state double) :
  length (circles st) = 1%nat ->
  reduce_step sched st = Some st' ->
  radius_sum st' = sequential_sum st.
Proof.
  intros L. unfold reduce_step. rewrite L.
  pose proof (single_run_all sched
                (single_start (loop_term st) (radius_sum st))) as Hr.
  change (omp_team 1) with
    [mkThread (double := double) [0%nat] None; mkThread [] None;
     mkThread [] None; mkThread [] None].
  destruct Hr; cbn; try discriminate.
  intros E. injection E as <-. simpl.
  unfold sequential_sum, loop_term.
  destruct (circles st) as [|p [|q l]]; try discriminate. reflexivity.
Qed.

Lemma lossy_run (term : nat -> double) (s0 : double) i work
    (rest : list (thread double)) :
  Forall (fun th => loaded th = None) rest ->
  omp_run term (0%nat :: serial_from 1 rest ++ 0%nat :: serial_one 0 work)
          (mkRegion s0 (mkThread (i :: work) None :: rest)) =
  mkRegion (fold_left (fun s j => s + term j) (i :: work) s0)
           (mkThread [] None :: map (fun _ => mkThread [] None) rest).
Proof.
  intros Hrest.
  rewrite omp_run_cons, omp_step_load_head, omp_run_app.
  pose proof (serial_from_run term Hrest s0
                [mkThread (i :: work) (Some s0)]) as E.
  cbn [length app] in E. rewrite E.
  rewrite omp_run_cons, omp_step_store_head.
  apply (serial_one_run term work (s0 + term i) []).
Qed.

(** Under [lossy_schedule] the loop ends with the partial sum of thread 0's
    block alone. *)
Lemma reduce_step_lossy (st : state double) :
  1 <= length (circles st) ->
  reduce_step (lossy_schedule (length (circles st))) st =
  Some (mkState (curves st) (circles st)
          (fold_left (fun s j => s + loop_term st j)
                     (omp_static_chunk (length (circles st)) num_threads 0)
                     (radius_sum st))).
Proof.
  intros Hn. unfold reduce_step.
  destruct (omp_static_chunk_0 Hn) as (k & Ek & _).
  set (n := length (circles st)) in *.
  set (rest := map (fun tid => mkThread (double := double)
                                 (omp_static_chunk n num_threads tid) None)
                   (seq 1 (num_threads - 1))).
  assert (Hrest : Forall (fun th => loaded th = None) rest).
  { unfold rest. apply Forall_map, Forall_forall. reflexivity. }
  change (omp_team n) with
    (mkThread (double := double) (omp_static_chunk n num_threads 0) None
       :: rest).
  change (lossy_schedule n) with
    (0%nat :: serial_from 1 rest ++ 0%nat
       :: serial_one 0 (tl (omp_static_chunk n num_threads 0))).
  rewrite Ek. cbn [tl].
  rewrite lossy_run by exact Hrest.
  pose proof (finished_all_done (radius_sum st) rest) as Hf.
  unfold finished in *. cbn [team forallb] in *.
  rewrite Hf. reflexivity.
Qed.

End ParallelLoopRuns.

(** ** The aggregator on an empty subview *)

Section AggregateEmpty.

Context {double : Type} `{DoubleArith double}.
Variable std_sort : forall A : Type, (A -> A -> bool) -> list A -> list A.
Hypothesis std_sort_ok : std_sort_contract std_sort.

Lemma std_sort_nil (A : Type) (comp : A -> A -> bool) :
  std_sort comp [] = [].
Proof.
  destruct (std_sort_ok (strict_weak_order_on_nil comp)) as [P _].
  now apply Permutation_sym, Permutation_nil in P.
Qed.

Lemma filter_circles_none (cs : list (object double)) :
  filter is_Circle cs = [] -> filter_circles cs = [].
Proof.
  intros E. apply length_zero_iff_nil.
  rewrite filter_circles_spec, Circle_positions_length. now rewrite E.
Qed.

(** C7.  When the collection has no Circle entry (in particular when it is
    empty), the subview is empty and the aggregation, under every
    interleaving of the parallel loop, reaches the barrier with [radius_sum]
    equal to the [0.0] it was initialised with. *)
Theorem aggregate_no_circles (sched : list nat) (cs : list (object double)) :
  filter is_Circle cs = [] ->
  aggregate std_sort sched cs = Some (mkState cs [] (dlit 0)).
Proof.
  intros E. unfold aggregate, sort_step, filter_step. simpl.
  fold (filter_circles cs). rewrite (filter_circles_none cs E).
  rewrite std_sort_nil. apply reduce_step_empty. reflexivity.
Qed.

End AggregateEmpty.

(** ** Lost updates in the parallel loop *)

Section LostUpdateReal.

Local Open Scope R_scope.

Lemma fold_add_le (term : nat -> R) (l : list nat) :
  Forall (fun j => 0 < term j) l ->
  forall s, s <= fold_left (fun s j => s + term j) l s.
Proof.
  induction 1 as [|j l Hj _ IH]; intros s; simpl; [lra |].
  specialize (IH (s + term j)). lra.
Qed.

Lemma fold_add_lt (term : nat -> R) (l : list nat) :
  l <> [] -> Forall (fun j => 0 < term j) l ->
  forall s, s < fold_left (fun s j => s + term j) l s.
Proof.
  intros Hne Hpos s. destruct l as [|j l]; [contradiction |].
  inversion Hpos as [|? ? Hj Hl]; subst. simpl.
  pose proof (@fold_add_le term l Hl (s + term j)). lra.
Qed.

Lemma sequential_sum_seq (st : state R) :
  sequential_sum st =
  fold_left (fun s j => s + loop_term st j) (seq 0 (length (circles st)))
            (radius_sum st).
Proof.
  unfold sequential_sum, loop_term. symmetry.
  apply (fold_left_seq_nth (fun s p => s + radius_at (curves st) p)
                           0%nat (circles st) [] (radius_sum st)).
Qed.

Lemma fold_left_radii (cs : list (object R)) (l : list ptr) :
  forall s,
    fold_left (fun s p => dadd s (radius_at cs p)) l s =
    fold_left Rplus (map (radius_at cs) l) s.
Proof. induction l as [|p l IH]; intros s; simpl; [reflexivity | apply IH]. Qed.

(** X3.  Whenever the subview holds two Circles or more, all of positive
    radius, some interleaving of the parallel loop reaches the barrier with
    [radius_sum] strictly below the sequential sum. *)
Theorem reduce_step_loses (st : state R) :
  (2 <= length (circles st))%nat ->
  Forall (fun p => 0 < radius_at (curves st) p) (circles st) ->
  exists st',
    reduce_step (lossy_schedule (length (circles st))) st = Some st' /\
    radius_sum st' < sequential_sum st.
Proof.
  intros Hn Hpos.
  assert (H1 : (1 <= length (circles st))%nat) by lia.
  eexists. split; [apply (reduce_step_lossy st H1) |].
  cbn [radius_sum]. rewrite sequential_sum_seq.
  destruct (omp_static_chunk_0 H1) as (k & Ek & Hk & Hlt).
  specialize (Hlt Hn). rewrite Ek.
  set (n := length (circles st)) in *.
  replace (seq 0 n) with ((0%nat :: seq 1 k) ++ seq (S k) (n - S k)).
  2:{ change (0%nat :: seq 1 k) with (seq 0 (S k)).
      replace (seq 0 n) with (seq 0 (S k + (n - S k))) by (f_equal; lia).
      now rewrite seq_app. }
  rewrite fold_left_app. apply fold_add_lt.
  - destruct (n - S k)%nat eqn:E; [lia | discriminate].
  - apply Forall_forall. intros j Hj. apply in_seq in Hj.
    unfold loop_term. rewrite Forall_forall in Hpos. apply Hpos.
    apply nth_In. fold n. lia.
Qed.

Lemma sample_filter : filter_circles sample_curves = [0; 3; 4; 6; 8]%nat.
Proof. reflexivity. Qed.

Variable std_sort : forall A : Type, (A -> A -> bool) -> list A -> list A.
Hypothesis std_sort_ok : std_sort_contract std_sort.

Lemma sample_sorted_radii :
  map (radius_at sample_curves)
      (std_sort (by_radius sample_curves) [0; 3; 4; 6; 8]%nat) =
  [1; 2; 3; 4; 5].
Proof.
  apply StronglySorted_Rle_unique.
  - exact (sort_step_sorted std_sort_ok
             (mkState sample_curves [0; 3; 4; 6; 8]%nat 0)).
  - repeat constructor; lra.
  - transitivity (map (radius_at sample_curves) [0; 3; 4; 6; 8]%nat).
    + apply Permutation_map.
      exact (sort_step_perm std_sort_ok
               (mkState sample_curves [0; 3; 4; 6; 8]%nat 0)).
    + change (Permutation [3; 1; 5; 2; 4] [1; 2; 3; 4; 5]).
      apply (Permutation_cons_app [1; 2] [4; 5] 3). simpl.
      apply perm_skip.
      apply (Permutation_cons_app [2; 4] [] 5). simpl.
      apply Permutation_refl.
Qed.

(** On [sample_curves], with any conforming [std::sort], the interleaving
    [lossy_schedule 5] ends with [radius_sum = 3] although the five radii add
    up to [15]. *)
Lemma sample_lost_update :
  exists st',
    aggregate std_sort [0; 1; 1; 2; 2; 3; 3; 0; 0; 0]%nat sample_curves
      = Some st' /\
    curves st' = sample_curves /\
    map (radius_at sample_curves) (circles st') = [1; 2; 3; 4; 5] /\
    radius_sum st' = 3 /\
    sequential_sum (mkState sample_curves (circles st') (dlit 0)) = 15.
Proof.
  set (st := sort_step std_sort
               (filter_step (mkState sample_curves [] (dlit 0)))).
  assert (Ec : circles st =
               std_sort (by_radius sample_curves) [0; 3; 4; 6; 8]%nat)
    by reflexivity.
  pose proof sample_sorted_radii as Er. rewrite <- Ec in Er.
  assert (El : length (circles st) = 5%nat).
  { rewrite <- (length_map (radius_at sample_curves)), Er. reflexivity. }
  assert (Eterm : forall j, loop_term st j =
                            nth j [1; 2; 3; 4; 5]
                                (radius_at sample_curves 0%nat)).
  { intros j. unfold loop_term. rewrite <- Er.
    symmetry. apply (map_nth (radius_at sample_curves)). }
  pose proof (reduce_step_lossy st) as Hrun.
  rewrite El in Hrun. specialize (Hrun ltac:(lia)).
  change (lossy_schedule 5) with [0; 1; 1; 2; 2; 3; 3; 0; 0; 0]%nat in Hrun.
  change (omp_static_chunk 5 num_threads 0) with [0; 1]%nat in Hrun.
  cbn [fold_left] in Hrun. rewrite !Eterm in Hrun. cbn [nth] in Hrun.
  eexists. split; [exact Hrun |]. cbn [curves circles radius_sum].
  split; [reflexivity |]. split; [exact Er |]. split.
  - simpl. rewrite Q2R_0. lra.
  - unfold sequential_sum. cbn [curves circles radius_sum].
    rewrite fold_left_radii, Er. simpl. rewrite Q2R_0. lra.
Qed.

Lemma scenario_sorted_radii :
  map (radius_at scenario)
      (std_sort (by_radius scenario) [0; 3]%nat) = [1; 3].
Proof.
  apply StronglySorted_Rle_unique.
  - exact (sort_step_sorted std_sort_ok (mkState scenario [0; 3]%nat 0)).
  - repeat constructor; lra.
  - transitivity (map (radius_at scenario) [0; 3]%nat).
    + apply Permutation_map.
      exact (sort_step_perm std_sort_ok (mkState scenario [0; 3]%nat 0)).
    + apply perm_swap.
Qed.

Lemma scenario_serial_run :
  exists st',
    aggregate std_sort (serial_schedule 2) scenario = Some st' /\
    map (radius_at scenario) (circles st') = [1; 3] /\
    radius_sum st' = 4.
Proof.
  set (st := sort_step std_sort (filter_step (mkState scenario [] (dlit 0)))).
  assert (Ec : circles st = std_sort (by_radius scenario) [0; 3]%nat)
    by reflexivity.
  pose proof scenario_sorted_radii as Er. rewrite <- Ec in Er.
  assert (El : length (circles st) = 2%nat).
  { rewrite <- (length_map (radius_at scenario)), Er. reflexivity. }
  pose proof (reduce_step_serial st) as Hrun. rewrite El in Hrun.
  eexists. split; [exact Hrun |]. cbn [curves circles radius_sum].
  split; [exact Er |].
  unfold sequential_sum.
  change (curves st) with scenario. change (radius_sum st) with (Q2R 0).
  rewrite fold_left_radii, Er. simpl. rewrite Q2R_0. lra.
Qed.

End LostUpdateReal.

(** The worked scenario: on [Circle(3), Ellipse(2,5), Helix(4,6),
    Circle(1)] the filter keeps positions 0 and 3, the sorted view reads the
    radii 1 and 3, and when the threads run one after the other the sum is
    4. *)
Theorem scenario_run :
  filter_circles scenario = [0; 3] /\
  exists st',
    aggregate insertion_sort (serial_schedule 2) scenario = Some st' /\
    map (radius_at scenario) (circles st') = [1; 3]%R /\
    radius_sum st' = 4%R.
Proof.
  split; [reflexivity | exact (scenario_serial_run insertion_sort_contract)].
Qed.

(** C6.  The parallel loop does not always yield the sequential sum: on
    [sample_curves] (a subview of five Circles, more than the four threads)
    the interleaving in which thread 0 reads, the others run, and thread 0
    resumes ends at the barrier with [radius_sum = 3], while the same radii
    add up to [15]. *)
Theorem parallel_sum_lost_update :
  exists st',
    aggregate insertion_sort [0; 1; 1; 2; 2; 3; 3; 0; 0; 0] sample_curves
      = Some st' /\
    curves st' = sample_curves /\
    map (radius_at sample_curves) (circles st') = [1; 2; 3; 4; 5]%R /\
    radius_sum st' = 3%R /\
    sequential_sum (mkState sample_curves (circles st') (dlit 0)) = 15%R.
Proof. exact (sample_lost_update insertion_sort_contract). Qed.

(** ** The collection builder *)

Section BuilderLoop.

Context {double : Type} `{DoubleArith double}.
Variable G : Type.
Variable int_dist : Z -> Z -> G -> Z * G.
Variable real_dist : double -> double -> G -> double * G.

Lemma build_loop_length (n : nat) :
  forall acc mt,
    length (fst (build_loop int_dist real_dist n acc mt)) = length acc + n.
Proof.
  induction n as [|n IH]; intros acc mt; simpl; [lia |].
  destruct (make_curve int_dist real_dist mt) as [c mt'].
  rewrite IH, length_app. simpl. lia.
Qed.

Lemma build_loop_Forall (P : object double -> Prop) :
  (forall mt, P (fst (make_curve int_dist real_dist mt))) ->
  forall n acc mt,
    Forall P acc -> Forall P (fst (build_loop int_dist real_dist n acc mt)).
Proof.
  intros HP. induction n as [|n IH]; intros acc mt Hacc; simpl; [exact Hacc |].
  specialize (HP mt).
  destruct (make_curve int_dist real_dist mt) as [c mt']. apply IH.
  apply Forall_app. split; [exact Hacc | constructor; [exact HP | constructor]].
Qed.

End BuilderLoop.

Section BuilderCorrect.

Local Open Scope R_scope.

Lemma Q2R_tenth : Q2R 0.1 = 1 / 10.
Proof. unfold Q2R; simpl; lra. Qed.

Lemma Q2R_hundred : Q2R 100.0 = 100.
Proof. unfold Q2R; simpl; lra. Qed.

Variable G : Type.
Variable uniform_int_distribution : Z -> Z -> G -> Z * G.
Variable uniform_real_distribution : R -> R -> G -> R * G.

(** What the standard library promises of a draw: a value within the bounds
    of the distribution. *)
Hypothesis uniform_int_bounds :
  forall a b g, (a <= b)%Z ->
    (a <= fst (uniform_int_distribution a b g) <= b)%Z.
Hypothesis uniform_real_bounds :
  forall a b g, a < b ->
    a <= fst (uniform_real_distribution a b g) < b.

Lemma real_draw_in_range (g : G) :
  in_range (fst (uniform_real_distribution (dlit 0.1) (dlit 100.0) g)).
Proof.
  pose proof (uniform_real_bounds (a := dlit 0.1) (b := dlit 100.0) g) as B.
  simpl in B. rewrite Q2R_tenth, Q2R_hundred in B.
  unfold in_range. simpl. rewrite Q2R_tenth, Q2R_hundred. lra.
Qed.

Lemma make_curve_correct (mt : G) :
  params_in_range
    (fst (make_curve uniform_int_distribution uniform_real_distribution mt)) /\
  variant_of_draw
    (fst (type_dist uniform_int_distribution mt))
    (fst (make_curve uniform_int_distribution uniform_real_distribution mt)).
Proof.
  unfold make_curve, type_dist, radius_dist, step_dist.
  pose proof (@uniform_int_bounds 1%Z 3%Z mt ltac:(lia)) as B.
  destruct (uniform_int_distribution 1 3 mt) as [ty mt1]. simpl in B.
  assert (Hty : ty = 1%Z \/ ty = 2%Z \/ ty = 3%Z) by lia.
  destruct Hty as [-> | [-> | ->]].
  - pose proof (real_draw_in_range mt1) as R1.
    destruct (uniform_real_distribution _ _ mt1) as [r mt2].
    simpl in *. auto.
  - pose proof (real_draw_in_range mt1) as R1.
    destruct (uniform_real_distribution _ _ mt1) as [rx mt2].
    pose proof (real_draw_in_range mt2) as R2.
    destruct (uniform_real_distribution _ _ mt2) as [ry mt3].
    simpl in *. auto.
  - pose proof (real_draw_in_range mt1) as R1.
    destruct (uniform_real_distribution _ _ mt1) as [r mt2].
    pose proof (real_draw_in_range mt2) as R2.
    destruct (uniform_real_distribution _ _ mt2) as [s mt3].
    simpl in *. auto.
Qed.

Lemma real_draw (g : G) :
  exists d g',
    uniform_real_distribution (dlit 0.1) (dlit 100.0) g = (d, g') /\
    uniform_real_distribution (1 / 10) 100 g = (d, g') /\
    in_range d.
Proof.
  pose proof (real_draw_in_range g) as Hr.
  destruct (uniform_real_distribution (dlit 0.1) (dlit 100.0) g)
    as [d g'] eqn:E.
  exists d, g'. split; [reflexivity |]. split; [| exact Hr].
  rewrite <- E. simpl. now rewrite Q2R_tenth, Q2R_hundred.
Qed.

(** A round of the loop draws its slot. *)
Lemma make_curve_drawn (mt : G) :
  slot_drawn uniform_int_distribution uniform_real_distribution mt
    (fst (make_curve uniform_int_distribution uniform_real_distribution mt))
    (snd (make_curve uniform_int_distribution uniform_real_distribution mt)).
Proof.
  unfold make_curve, type_dist, radius_dist, step_dist, slot_drawn.
  pose proof (@uniform_int_bounds 1%Z 3%Z mt ltac:(lia)) as B.
  destruct (uniform_int_distribution 1 3 mt) as [ty mt1]. simpl in B.
  exists ty, mt1. split; [reflexivity |]. split; [exact B |].
  assert (Hty : ty = 1%Z \/ ty = 2%Z \/ ty = 3%Z) by lia.
  destruct Hty as [-> | [-> | ->]].
  - destruct (real_draw mt1) as (r & mt2 & E1 & E1' & R1).
    rewrite E1. cbn. split; [reflexivity |]. exists r. auto.
  - destruct (real_draw mt1) as (d1 & mt2 & E1 & E1' & R1).
    destruct (real_draw mt2) as (d2 & mt3 & E2 & E2' & R2).
    rewrite E1, E2. cbn. split; [reflexivity |].
    exists d1, mt2, d2. auto 10.
  - destruct (real_draw mt1) as (d1 & mt2 & E1 & E1' & R1).
    destruct (real_draw mt2) as (d2 & mt3 & E2 & E2' & R2).
    rewrite E1, E2. cbn. split; [reflexivity |].
    exists d1, mt2, d2. auto 10.
Qed.

(** [n] rounds of the loop append [n] slots, drawn one after the other. *)
Lemma build_loop_drawn (n : nat) :
  forall acc mt,
    exists cs,
      fst (build_loop uniform_int_distribution uniform_real_distribution
                      n acc mt) = acc ++ cs /\
      slots_drawn uniform_int_distribution uniform_real_distribution
        mt cs
        (snd (build_loop uniform_int_distribution uniform_real_distribution
                         n acc mt)).
Proof.
  induction n as [|n IH]; intros acc mt; simpl.
  - exists []. split; [now rewrite app_nil_r | constructor].
  - pose proof (make_curve_drawn mt) as Hd.
    destruct (make_curve uniform_int_distribution uniform_real_distribution
                         mt) as [c mt1].
    destruct (IH (acc ++ [c]) mt1) as (cs & E & Hcs).
    exists (c :: cs). split.
    + rewrite E, <- app_assoc. reflexivity.
    + econstructor; [exact Hd | exact Hcs].
Qed.

(** C9.  For every state of the engine, and with distributions that keep
    within their bounds, the builder makes exactly 10 curves, drawn slot
    after slot with the engine handed from each draw to the next.  In each
    slot the variant is the one a draw of [uniform_int_distribution(1, 3)]
    selects, and the three values of that draw select Circle, Ellipse and
    Helix, one each; every radius and every step is, unchanged, a draw of
    [uniform_real_distribution(0.1, 100.0)], and so lies in [[0.1, 100.0]].
    The variant and the parameters thus have the law of the library's
    draws: uniform over three values, uniform over the range. *)
Theorem build_curves_correct (mt : G) :
  length (build_curves uniform_int_distribution uniform_real_distribution mt)
    = 10%nat /\
  Forall params_in_range
    (build_curves uniform_int_distribution uniform_real_distribution mt) /\
  slots_drawn uniform_int_distribution uniform_real_distribution
    mt
    (build_curves uniform_int_distribution uniform_real_distribution mt)
    (snd (build_loop uniform_int_distribution uniform_real_distribution
                     size [] mt)) /\
  map switch_variant [1; 2; 3]%Z = [VCircle; VEllipse; VHelix].
Proof.
  unfold build_curves. split; [| split; [| split]].
  - rewrite build_loop_length. reflexivity.
  - apply build_loop_Forall; [| constructor].
    intros mt'. apply make_curve_correct.
  - destruct (build_loop_drawn size [] mt) as (cs & E & Hcs).
    rewrite E. exact Hcs.
  - reflexivity.
Qed.

End BuilderCorrect.

(** ** [main] *)

Section MainRuns.

Context {double : Type} `{DoubleArith double}.
Variable G : Type.
Variable int_dist : Z -> Z -> G -> Z * G.
Variable real_dist : double -> double -> G -> double * G.
Variable std_sort : forall A : Type, (A -> A -> bool) -> list A -> list A.

(** [main] always has a run that reaches its last line. *)
Lemma main_has_a_run (mt : G) :
  exists sched v, main int_dist real_dist std_sort mt sched = Some v.
Proof.
  unfold main, aggregate.
  set (st := sort_step std_sort _).
  exists (serial_schedule (length (circles st))), (sequential_sum st).
  now rewrite reduce_step_serial.
Qed.

End MainRuns.

(** ** The properties at concrete inputs *)

Section Witnesses.

Local Open Scope R_scope.

Lemma scenario_subview : circles scenario_filtered = [0; 3]%nat.
Proof. reflexivity. Qed.

Lemma sort_step_correct_witness :
  curves (sort_step insertion_sort scenario_filtered) = scenario /\
  radius_sum (sort_step insertion_sort scenario_filtered) = 0 /\
  Permutation (circles (sort_step insertion_sort scenario_filtered))
              [0; 3]%nat /\
  StronglySorted Rle
    (map (radius_at scenario)
         (circles (sort_step insertion_sort scenario_filtered))) /\
  (StronglySorted Rle (map (radius_at scenario) [0; 3]%nat) ->
   map (radius_at scenario)
       (circles (sort_step insertion_sort scenario_filtered)) =
   map (radius_at scenario) [0; 3]%nat) /\
  map (radius_at scenario)
      (circles (sort_step insertion_sort
                  (sort_step insertion_sort scenario_filtered))) =
  map (radius_at scenario)
      (circles (sort_step insertion_sort scenario_filtered)).
Proof.
  exact (sort_step_correct insertion_sort_contract scenario_filtered).
Defined.

Lemma aggregate_no_circles_witness :
  aggregate insertion_sort [0; 1; 2; 3; 0]%nat
    [ObjEllipse (mkEllipse 2 5); ObjHelix (mkHelix 4 6)] =
  Some (mkState [ObjEllipse (mkEllipse 2 5); ObjHelix (mkHelix 4 6)] []
                (dlit 0)).
Proof.
  apply (aggregate_no_circles insertion_sort_contract).
  reflexivity.
Defined.

Lemma counter_int_bounds (a b : Z) (g : nat) :
  (a <= b)%Z -> (a <= fst (counter_int a b g) <= b)%Z.
Proof.
  intros Hab. simpl.
  pose proof (Z.mod_pos_bound (Z.of_nat g) (b - a + 1) ltac:(lia)). lia.
Qed.

Lemma counter_real_bounds (a b : R) (g : nat) :
  a < b -> a <= fst (counter_real a b g) < b.
Proof. intros Hab. simpl. lra. Qed.

Lemma build_curves_correct_witness :
  length (build_curves counter_int counter_real 0%nat) = 10%nat /\
  Forall params_in_range (build_curves counter_int counter_real 0%nat) /\
  slots_drawn counter_int counter_real
    0%nat
    (build_curves counter_int counter_real 0%nat)
    (snd (build_loop counter_int counter_real size [] 0%nat)) /\
  map switch_variant [1; 2; 3]%Z = [VCircle; VEllipse; VHelix].
Proof.
  exact (build_curves_correct counter_int counter_real
           counter_int_bounds counter_real_bounds 0%nat).
Defined.

Lemma reduce_step_loses_witness :
  exists st',
    reduce_step (lossy_schedule 2) (mkState scenario [3; 0]%nat 0)
      = Some st' /\
    radius_sum st' < sequential_sum (mkState scenario [3; 0]%nat 0).
Proof.
  apply (reduce_step_loses (mkState scenario [3; 0]%nat 0)).
  - simpl. lia.
  - simpl. repeat constructor; unfold radius_at; simpl; lra.
Defined.

Lemma reduce_step_single_witness :
  radius_sum (mkState scenario [3]%nat (0 + 1)) =
  sequential_sum (mkState scenario [3]%nat 0).
Proof.
  apply (reduce_step_single [0; 0]%nat (mkState scenario [3]%nat 0));
    reflexivity.
Defined.

End Witnesses.

(** ** What the racing loop can and cannot do *)

Lemma NoDup_app_not_In (A : Type) (l1 l2 : list A) (a : A) :
  NoDup (l1 ++ l2) -> In a l1 -> ~ In a l2.
Proof.
  induction l1 as [|b l1 IH]; simpl; intros Hnd Hin; [contradiction |].
  inversion Hnd as [|? ? Hb Hnd']; subst.
  destruct Hin as [-> | Hin]; [| now apply IH].
  intros Ha. apply Hb. apply in_or_app. now right.
Qed.

Section RaceInvariant.

Context {double : Type} `{DoubleArith double}.
Local Open Scope double_scope.
Variable term : nat -> double.
Variable s0 : double.

Lemma subsum_mono (D D' : list nat) (v : double) :
  incl D D' -> subsum term s0 D v -> subsum term s0 D' v.
Proof.
  intros Hi (S & Hnd & HS & E). exists S. repeat split; try assumption.
  intros i Hin. apply Hi, HS, Hin.
Qed.

Lemma subsum_add (D : list nat) (v : double) (i : nat) :
  ~ In i D -> subsum term s0 D v -> subsum term s0 (i :: D) (v + term i).
Proof.
  intros Hi (S & Hnd & HS & E). exists (S ++ [i]). split; [| split].
  - apply NoDup_app_remove_l with (l := []). simpl.
    apply Permutation_NoDup with (l := i :: S).
    + apply Permutation_cons_append.
    + constructor; [| exact Hnd]. intros Hin. apply Hi, HS, Hin.
  - intros j Hj. apply in_app_or in Hj. destruct Hj as [Hj | [<- | []]].
    + right. apply HS, Hj.
    + now left.
  - unfold partial_sum in *. rewrite fold_left_app. simpl. now rewrite E.
Qed.

Lemma race_inv_step (n : nat) (r : region double) (tid : nat) :
  race_inv term s0 n r -> race_inv term s0 n (omp_step term r tid).
Proof.
  intros Hinv. unfold omp_step.
  destruct (nth_error (team r) tid) as [th|] eqn:E; [| exact Hinv].
  destruct th as [[|i rest] ld]; [exact Hinv |]. cbn [todo loaded].
  apply nth_error_split in E. destruct E as (pre & post & Et & El).
  subst tid. destruct r as [sum tm]. cbn [team shared_sum] in *. subst tm.
  rewrite !set_nth_middle.
  destruct Hinv as (D & HP & Hsum & Hth). cbn [team shared_sum] in *.
  rewrite map_app, concat_app in HP. cbn [map concat todo] in HP.
  apply Forall_app in Hth. destruct Hth as [Hpre Hth].
  inversion Hth as [|? ? Hme Hpost]; subst. cbn [loaded] in Hme.
  destruct ld as [v|].
  - (* the write of iteration [i] *)
    assert (HnotD : ~ In i D).
    { intros HiD.
      assert (Hnd : NoDup (D ++ concat (map todo pre)
                             ++ (i :: rest) ++ concat (map todo post))).
      { apply Permutation_NoDup with (l := seq 0 n);
          [now apply Permutation_sym | apply seq_NoDup]. }
      eapply NoDup_app_not_In; [exact Hnd | exact HiD |].
      apply in_or_app. right. apply in_or_app. left. now left. }
    exists (i :: D). cbn [team shared_sum]. split; [| split].
    + rewrite map_app, concat_app. cbn [map concat todo].
      etransitivity; [| exact HP]. cbn [app].
      rewrite !(app_assoc D).
      apply (Permutation_middle (D ++ concat (map todo pre))
                                (rest ++ concat (map todo post)) i).
    + apply subsum_add; [exact HnotD | now apply Hme].
    + apply Forall_app. split; [| constructor].
      * eapply Forall_impl; [| exact Hpre]. cbn beta. intros th Hv v' Ev.
        apply subsum_mono with (D := D); [apply incl_tl, incl_refl |].
        now apply Hv.
      * cbn [loaded]. intros v' Ev. discriminate.
      * eapply Forall_impl; [| exact Hpost]. cbn beta. intros th Hv v' Ev.
        apply subsum_mono with (D := D); [apply incl_tl, incl_refl |].
        now apply Hv.
  - (* the read for iteration [i] *)
    exists D. cbn [team shared_sum]. split; [| split].
    + rewrite map_app, concat_app. cbn [map concat todo]. exact HP.
    + exact Hsum.
    + apply Forall_app. split; [exact Hpre | constructor; [| exact Hpost]].
      cbn [loaded]. intros v' Ev. injection Ev as <-. exact Hsum.
Qed.

Lemma race_inv_run (n : nat) (sched : list nat) :
  forall r, race_inv term s0 n r -> race_inv term s0 n (omp_run term sched r).
Proof.
  unfold omp_run. induction sched as [|tid sched IH]; intros r Hr; simpl.
  - exact Hr.
  - apply IH. now apply race_inv_step.
Qed.

Lemma race_inv_init (n : nat) :
  race_inv term s0 n (mkRegion s0 (omp_team n)).
Proof.
  exists []. cbn [team shared_sum app]. split; [| split].
  - rewrite omp_team_todo. apply Permutation_refl.
  - exists []. repeat split; [constructor | apply incl_refl].
  - eapply Forall_impl; [| apply omp_team_loaded].
    cbn beta. intros th E v Ev. congruence.
Qed.

End RaceInvariant.

Section RaceGeneric.

Context {double : Type} `{DoubleArith double}.

(** At every point of every interleaving, [radius_sum] is its initial value
    plus the terms of some iterations, each at most once. *)
Lemma omp_run_subsum (term : nat -> double) (s0 : double) (n : nat)
    (sched : list nat) :
  exists S : list nat,
    NoDup S /\
    (forall i, In i S -> i < n) /\
    shared_sum (omp_run term sched (mkRegion s0 (omp_team n))) =
    partial_sum term s0 S.
Proof.
  destruct (race_inv_run sched (race_inv_init term s0 n))
    as (D & HP & (S & Hnd & HS & ES) & _).
  exists S. split; [exact Hnd |]. split; [| exact ES].
  intros i Hi. apply HS in Hi.
  assert (Hin : In i (seq 0 n)).
  { apply (Permutation_in _ HP). apply in_or_app. now left. }
  apply in_seq in Hin. lia.
Qed.

Lemma reduce_step_shared (sched : list nat) (st st' : state double) :
  reduce_step sched st = Some st' ->
  curves st' = curves st /\ circles st' = circles st /\
  radius_sum st' =
  shared_sum (omp_run (loop_term st) sched
                (mkRegion (radius_sum st) (omp_team (length (circles st))))).
Proof.
  unfold reduce_step. cbv zeta.
  destruct (finished _); [| discriminate].
  intros E. injection E as <-. repeat split.
Qed.

(** X5.  Whatever the interleaving, a run of the parallel loop that reaches
    the barrier leaves the collection and the view as they were, and in
    [radius_sum] its initial value plus the terms [circles[i]->radius()] of
    some iterations [i] of the loop, each at most once: the race can drop
    terms, it cannot add one twice or add anything else. *)
Theorem reduce_step_partial_sum (sched : list nat) (st st' : state double) :
  reduce_step sched st = Some st' ->
  curves st' = curves st /\ circles st' = circles st /\
  exists S : list nat,
    NoDup S /\
    (forall i, In i S -> i < length (circles st)) /\
    radius_sum st' = partial_sum (loop_term st) (radius_sum st) S.
Proof.
  intros Hrun. destruct (reduce_step_shared sched st Hrun) as (Ec & Ev & Es).
  split; [exact Ec |]. split; [exact Ev |]. rewrite Es.
  apply omp_run_subsum.
Qed.

End RaceGeneric.

Section Totals.

Local Open Scope R_scope.

Lemma total_app (l1 l2 : list R) : total (l1 ++ l2) = total l1 + total l2.
Proof. induction l1 as [|a l1 IH]; simpl; [lra | rewrite IH; lra]. Qed.

Lemma total_perm (l1 l2 : list R) :
  Permutation l1 l2 -> total l1 = total l2.
Proof. induction 1; simpl; lra. Qed.

Lemma fold_left_total (f : nat -> R) (l : list nat) :
  forall s, fold_left (fun s i => dadd s (f i)) l s = s + total (map f l).
Proof.
  induction l as [|i l IH]; intros s; simpl; [lra |].
  rewrite IH. simpl. lra.
Qed.

Lemma total_nonneg (l : list R) : Forall (fun v => 0 <= v) l -> 0 <= total l.
Proof. induction 1; simpl; lra. Qed.

Lemma total_le_length (b : R) (l : list R) :
  Forall (fun v => v <= b) l -> total l <= b * INR (length l).
Proof.
  induction 1 as [|v l Hv _ IH]; [simpl; lra |].
  cbn [total fold_right length]. rewrite S_INR. fold (total l). lra.
Qed.

(** Over non-negative terms, a sum over some of the positions of [L], each
    at most once, does not exceed the sum over [L]. *)
Lemma total_sub (f : nat -> R) (S : list nat) :
  forall L, NoDup S -> incl S L -> (forall i, In i L -> 0 <= f i) ->
            total (map f S) <= total (map f L).
Proof.
  induction S as [|a S IH]; intros L Hnd Hincl Hpos.
  - simpl. apply total_nonneg. apply Forall_map, Forall_forall. exact Hpos.
  - inversion Hnd as [|? ? Ha Hnd']; subst.
    assert (HaL : In a L) by (apply Hincl; now left).
    apply in_split in HaL. destruct HaL as (l1 & l2 & ->).
    assert (Hincl' : incl S (l1 ++ l2)).
    { intros j Hj. assert (Hj' : In j (l1 ++ a :: l2))
        by (apply Hincl; now right).
      apply in_app_or in Hj'. apply in_or_app.
      destruct Hj' as [Hj' | [-> | Hj']];
        [now left | contradiction | now right]. }
    assert (Hpos' : forall i, In i (l1 ++ l2) -> 0 <= f i).
    { intros j Hj. apply Hpos. apply in_app_or in Hj. apply in_or_app.
      destruct Hj; [now left | right; now right]. }
    specialize (IH (l1 ++ l2) Hnd' Hincl' Hpos').
    rewrite !map_app, !total_app in *. simpl. lra.
Qed.

Lemma map_nth_seq (A : Type) (d : A) (l : list A) :
  forall pre,
    map (fun i => nth i (pre ++ l) d) (seq (length pre) (length l)) = l.
Proof.
  induction l as [|a l IH]; intros pre; [reflexivity |].
  simpl. rewrite app_nth2 by lia. rewrite Nat.sub_diag. simpl. f_equal.
  specialize (IH (pre ++ [a])).
  rewrite <- app_assoc, length_app, Nat.add_1_r in IH. exact IH.
Qed.

Lemma loop_terms (st : state R) :
  map (loop_term st) (seq 0 (length (circles st))) =
  map (radius_at (curves st)) (circles st).
Proof.
  unfold loop_term.
  rewrite <- (map_map (fun i => nth i (circles st) 0%nat)
                      (radius_at (curves st))).
  f_equal. apply (map_nth_seq 0%nat (circles st) []).
Qed.

Lemma sequential_sum_total (st : state R) :
  sequential_sum st =
  radius_sum st + total (map (radius_at (curves st)) (circles st)).
Proof.
  rewrite sequential_sum_seq.
  rewrite (fold_left_total (loop_term st)). now rewrite loop_terms.
Qed.

(** Whatever the interleaving, and at every point of it: with no negative
    radius in the view, [radius_sum] lies between its initial value and that
    value plus all the radii. *)
Lemma omp_run_between (st : state R) (sched : list nat) :
  Forall (fun p => 0 <= radius_at (curves st) p) (circles st) ->
  radius_sum st <=
  shared_sum (omp_run (loop_term st) sched
                (mkRegion (radius_sum st) (omp_team (length (circles st)))))
  <= radius_sum st + total (map (radius_at (curves st)) (circles st)).
Proof.
  intros Hpos.
  destruct (omp_run_subsum (loop_term st) (radius_sum st)
                           (length (circles st)) sched)
    as (S & Hnd & Hlt & E).
  assert (Hterm : forall i, In i (seq 0 (length (circles st))) ->
                            0 <= loop_term st i).
  { intros i Hi. apply in_seq in Hi. unfold loop_term.
    rewrite Forall_forall in Hpos. apply Hpos, nth_In. lia. }
  rewrite E. unfold partial_sum. rewrite fold_left_total.
  rewrite <- loop_terms.
  assert (Hincl : incl S (seq 0 (length (circles st)))).
  { intros i Hi. apply in_seq. specialize (Hlt i Hi). lia. }
  pose proof (total_sub (loop_term st) Hnd Hincl Hterm) as Hle.
  assert (H0 : 0 <= total (map (loop_term st) S)).
  { apply total_nonneg, Forall_map, Forall_forall.
    intros i Hi. apply Hterm, Hincl, Hi. }
  lra.
Qed.

(** X6.  Over the reals, when no radius read through the view is negative,
    every interleaving of the parallel loop that reaches the barrier leaves
    [radius_sum] between its initial value and the sequential sum: the race
    can lose radii, it never overshoots. *)
Theorem reduce_step_bounds (sched : list nat) (st st' : state R) :
  Forall (fun p => 0 <= radius_at (curves st) p) (circles st) ->
  reduce_step sched st = Some st' ->
  radius_sum st <= radius_sum st' <= sequential_sum st.
Proof.
  intros Hpos Hrun.
  destruct (reduce_step_shared sched st Hrun) as (_ & _ & Es).
  rewrite Es, sequential_sum_total. now apply omp_run_between.
Qed.

End Totals.

(** ** The view handed to the parallel loop *)

Section ViewSafety.

Local Open Scope R_scope.

Lemma filter_circles_NoDup (cs : list (object R)) :
  NoDup (filter_circles cs).
Proof.
  rewrite filter_circles_spec.
  generalize (Circle_positions_sorted cs 0%nat).
  generalize (Circle_positions 0%nat cs). intros l Hs.
  induction Hs as [|a l Hs IH Hall]; constructor; [| exact IH].
  intros Hin. rewrite Forall_forall in Hall. specialize (Hall a Hin). lia.
Qed.

Lemma filter_circles_length_le (cs : list (object R)) :
  (length (filter_circles cs) <= length cs)%nat.
Proof.
  rewrite filter_circles_spec, Circle_positions_length.
  apply filter_length_le.
Qed.

Lemma omp_static_chunk_lt (n tid i : nat) :
  (tid < num_threads)%nat -> In i (omp_static_chunk n num_threads tid) ->
  (i < n)%nat.
Proof.
  intros Htid Hin.
  assert (Hc : In i (concat (map (omp_static_chunk n num_threads)
                                 (seq 0 num_threads)))).
  { apply in_concat. exists (omp_static_chunk n num_threads tid).
    split; [| exact Hin]. apply in_map, in_seq. lia. }
  rewrite omp_static_chunks_cover in Hc. apply in_seq in Hc. lia.
Qed.

Variable std_sort : forall A : Type, (A -> A -> bool) -> list A -> list A.
Hypothesis std_sort_ok : std_sort_contract std_sort.

Lemma sorted_view_perm (cs : list (object R)) (s0 : R) :
  Permutation
    (circles (sort_step std_sort (filter_step (mkState cs [] s0))))
    (filter_circles cs).
Proof.
  exact (sort_step_perm std_sort_ok (filter_step (mkState cs [] s0))).
Qed.

Lemma sorted_view_valid (cs : list (object R)) (s0 : R) :
  Forall (fun p => exists c, nth_error cs p = Some (ObjCircle c))
         (circles (sort_step std_sort (filter_step (mkState cs [] s0)))).
Proof.
  apply Forall_forall. intros p Hp.
  apply (Permutation_in _ (sorted_view_perm cs s0)) in Hp.
  pose proof (filter_loop_valid cs) as Hv.
  rewrite Forall_forall in Hv. now apply Hv.
Qed.

Lemma sorted_view_length (cs : list (object R)) (s0 : R) :
  (length (circles (sort_step std_sort (filter_step (mkState cs [] s0))))
   <= length cs)%nat.
Proof.
  rewrite (Permutation_length (sorted_view_perm cs s0)).
  apply filter_circles_length_le.
Qed.

(** X7.  After the filter and a conforming sort, the view holds no pointer
    twice, no more pointers than the collection has curves, and only
    pointers to Circles of the collection; and every index [i] a thread of
    the parallel loop is handed lies inside the view, so that every
    [circles[i]->radius()] it evaluates is the radius a Circle of the
    collection was constructed with. *)
Theorem sorted_view_safe (cs : list (object R)) (s0 : R) :
  let st := sort_step std_sort (filter_step (mkState cs [] s0)) in
  NoDup (circles st) /\
  (length (circles st) <= length cs)%nat /\
  Forall (fun p => exists c, nth_error cs p = Some (ObjCircle c))
         (circles st) /\
  (forall tid i,
      (tid < num_threads)%nat ->
      In i (omp_static_chunk (length (circles st)) num_threads tid) ->
      exists p c,
        nth_error (circles st) i = Some p /\
        nth_error cs p = Some (ObjCircle c) /\
        loop_term st i = Circle_radius_ c).
Proof.
  intros st.
  pose proof (sorted_view_perm cs s0) as HP. fold st in HP.
  pose proof (sorted_view_valid cs s0) as Hvalid. fold st in Hvalid.
  split; [| split; [| split]].
  - apply (Permutation_NoDup (Permutation_sym HP)), filter_circles_NoDup.
  - apply sorted_view_length.
  - exact Hvalid.
  - intros tid i Htid Hin.
    pose proof (@omp_static_chunk_lt _ _ _ Htid Hin) as Hi.
    destruct (nth_error (circles st) i) as [p|] eqn:Ep.
    2:{ apply nth_error_None in Ep. lia. }
    rewrite Forall_forall in Hvalid.
    destruct (Hvalid p (nth_error_In _ _ Ep)) as (c & Ec).
    exists p, c. split; [reflexivity |]. split; [exact Ec |].
    assert (En : @nth ptr i (circles st) 0%nat = p)
      by exact (nth_error_nth _ _ 0%nat Ep).
    unfold loop_term. rewrite En.
    change (curves st) with cs. unfold radius_at. now rewrite Ec.
Qed.

(** X8.  On every collection, with a conforming [std::sort] and the threads
    running one after the other, the aggregator reaches its end with the
    collection as it was, a view that is a reordering of the filtered one,
    and [radius_sum] equal to the sum of the radii the Circles of the
    collection were constructed with: sorting does not change the sum. *)
Theorem aggregate_serial_total (cs : list (object R)) :
  exists st',
    aggregate std_sort (serial_schedule (length (filter is_Circle cs))) cs
      = Some st' /\
    curves st' = cs /\
    Permutation (circles st') (filter_circles cs) /\
    radius_sum st' = total (constructed_radii cs).
Proof.
  unfold aggregate.
  set (st := sort_step std_sort (filter_step (mkState cs [] (dlit 0)))).
  pose proof (sorted_view_perm cs (dlit 0)) as HP. fold st in HP.
  assert (El : length (circles st) = length (filter is_Circle cs)).
  { rewrite (Permutation_length HP), filter_circles_spec.
    apply Circle_positions_length. }
  pose proof (reduce_step_serial st) as Hrun. rewrite El in Hrun.
  eexists. split; [exact Hrun |]. cbn [curves circles radius_sum].
  split; [reflexivity |]. split; [exact HP |].
  rewrite sequential_sum_total.
  change (curves st) with cs. change (radius_sum st) with (Q2R 0).
  rewrite (total_perm (Permutation_map (radius_at cs) HP)).
  rewrite filter_circles_spec.
  rewrite (Circle_positions_radii cs []). rewrite Q2R_0. lra.
Qed.

End ViewSafety.

(** ** One full turn of the parameter *)

Section FullTurn.

Local Open Scope R_scope.

Lemma cos_full_turn (t : R) : cos (t + 2 * PI) = cos t.
Proof. rewrite cos_plus, cos_2PI, sin_2PI. ring. Qed.

Lemma sin_full_turn (t : R) : sin (t + 2 * PI) = sin t.
Proof. rewrite sin_plus, cos_2PI, sin_2PI. ring. Qed.

(** X9.  Over the reals, for every curve and every [t]: after one full turn
    of the parameter, [point(t + 2*pi)] has the x and y of [point(t)] and a z
    higher by exactly [step] for a Helix (by nothing for a Circle or an
    Ellipse), and [derivative(t + 2*pi)] is [derivative(t)]. *)
Theorem full_turn (o : object R) (t : R) :
  x (point o (t + 2 * PI)) = x (point o t) /\
  y (point o (t + 2 * PI)) = y (point o t) /\
  z (point o (t + 2 * PI)) = z (point o t) + pitch o /\
  derivative o (t + 2 * PI) = derivative o t.
Proof.
  pose proof PI_neq0 as Hpi.
  destruct o as [c | e | h]; simpl;
    rewrite ?cos_full_turn, ?sin_full_turn, ?Q2R_0, ?Q2R_2;
    repeat split; try lra.
  field. exact Hpi.
Qed.

End FullTurn.

(** ** Descriptions and the report *)

Section Descriptions.

Context {double : Type} `{DoubleArith double} `{DoubleText double}.
Local Open Scope string_scope.

(** X10.  Whatever [std::to_string] prints for the parameters, two curves
    with the same description are of the same variant. *)
Theorem objectInfo_variant (o1 o2 : object double) :
  objectInfo o1 = objectInfo o2 -> variant_of o1 = variant_of o2.
Proof.
  destruct o1, o2; cbn; intros E; try reflexivity; discriminate E.
Qed.

Lemma report_length (cs : list (object double)) :
  length (report cs) = 4 * length cs.
Proof.
  unfold report. cbv zeta.
  induction cs as [|o cs IH]; [reflexivity |].
  cbn [flat_map report_curve app length]. rewrite IH. lia.
Qed.

(** X11.  The report prints, for each curve and in collection order, a block
    of four lines: its description, its point at [M_PI / 4], its derivative
    there, and an empty line; so [4 * n] lines for [n] curves. *)
Theorem report_blocks (cs : list (object double)) :
  length (report cs) = 4 * length cs /\
  forall k o,
    nth_error cs k = Some o ->
    nth_error (report cs) (4 * k) = Some (objectInfo o) /\
    nth_error (report cs) (4 * k + 1) =
      Some ("Point at t = PI / 4: "
              ++ put_Point (point o (M_PI / dlit 4)%D)) /\
    nth_error (report cs) (4 * k + 2) =
      Some ("Derivative at t = PI / 4: "
              ++ put_Point (derivative o (M_PI / dlit 4)%D)) /\
    nth_error (report cs) (4 * k + 3) = Some "".
Proof.
  split; [apply report_length |].
  unfold report. cbv zeta.
  induction cs as [|c cs IH]; intros k o Hk; [destruct k; discriminate |].
  cbn [flat_map report_curve app].
  destruct k as [|k].
  - injection Hk as <-. repeat split.
  - replace (4 * S k) with (S (S (S (S (4 * k))))) by lia.
    cbn [nth_error Nat.add]. apply (IH k o Hk).
Qed.

End Descriptions.

(** ** The radii of the built curves and the output of [main] *)

Section MainCorrect.

Local Open Scope R_scope.

Lemma radius_in_range (o : object R) :
  params_in_range o -> in_range (radius o).
Proof.
  destruct o as [c | e | h]; simpl; try tauto.
  intros [Hx Hy]. rewrite std_max_Rmax.
  unfold Rmax. destruct (Rle_dec _ _); assumption.
Qed.

Variable G : Type.
Variable uniform_int_distribution : Z -> Z -> G -> Z * G.
Variable uniform_real_distribution : R -> R -> G -> R * G.
Hypothesis uniform_int_bounds :
  forall a b g, (a <= b)%Z ->
    (a <= fst (uniform_int_distribution a b g) <= b)%Z.
Hypothesis uniform_real_bounds :
  forall a b g, a < b ->
    a <= fst (uniform_real_distribution a b g) < b.

Lemma build_curves_params (mt : G) :
  Forall params_in_range
    (build_curves uniform_int_distribution uniform_real_distribution mt).
Proof.
  unfold build_curves. apply build_loop_Forall; [| constructor].
  intros mt'.
  apply (make_curve_correct _ _ uniform_int_bounds uniform_real_bounds).
Qed.

Lemma build_curves_length (mt : G) :
  length (build_curves uniform_int_distribution uniform_real_distribution mt)
  = 10%nat.
Proof. unfold build_curves. now rewrite build_loop_length. Qed.

(** X12.  For every engine state, with distributions that keep within their
    bounds: [radius()] of every built curve, whatever its variant, lies in
    [[0.1, 100.0]]. *)
Theorem build_curves_radius (mt : G) :
  Forall (fun o => in_range (radius o))
    (build_curves uniform_int_distribution uniform_real_distribution mt).
Proof.
  eapply Forall_impl; [| apply build_curves_params].
  apply radius_in_range.
Qed.

Context `{DoubleText R}.
Variable std_sort : forall A : Type, (A -> A -> bool) -> list A -> list A.
Hypothesis std_sort_ok : std_sort_contract std_sort.

(** X13.  For every engine state and every interleaving with which [main]
    reaches its end (distributions within their bounds, a conforming
    [std::sort]): [main] prints 41 lines, the report of the ten built curves
    and then the total line; the total it prints is the value of
    [radius_sum], which lies between 0 and 1000. *)
Theorem main_output_shape (mt : G) (sched : list nat) (out : list string) :
  main_output uniform_int_distribution uniform_real_distribution std_sort
              mt sched = Some out ->
  length out = 41%nat /\
  firstn 40 out =
    report (build_curves uniform_int_distribution uniform_real_distribution
                         mt) /\
  exists v : R,
    nth_error out 40 = Some (total_line v) /\
    main uniform_int_distribution uniform_real_distribution std_sort
         mt sched = Some v /\
    0 <= v <= 1000.
Proof.
  unfold main_output, main. cbv zeta.
  set (cs := build_curves uniform_int_distribution
                          uniform_real_distribution mt).
  pose proof (build_curves_length mt) as Hlen. fold cs in Hlen.
  pose proof (build_curves_params mt) as Hpar. fold cs in Hpar.
  assert (Hrep : length (report cs) = 40%nat)
    by (rewrite report_length, Hlen; reflexivity).
  destruct (aggregate std_sort sched cs) as [st'|] eqn:Hagg; [| discriminate].
  intros E. injection E as <-.
  split; [rewrite length_app, Hrep; reflexivity |].
  split.
  { rewrite <- Hrep. rewrite firstn_app, Nat.sub_diag, firstn_all.
    cbn [firstn]. apply app_nil_r. }
  exists (radius_sum st'). split.
  { rewrite nth_error_app2 by lia. rewrite Hrep. reflexivity. }
  split; [reflexivity |].
  unfold aggregate in Hagg.
  set (st := sort_step std_sort (filter_step (mkState cs [] (dlit 0)))) in *.
  pose proof (sorted_view_valid std_sort_ok cs (dlit 0)) as Hvalid.
  pose proof (sorted_view_length std_sort_ok cs (dlit 0)) as Hcount.
  fold st in Hvalid, Hcount. rewrite Hlen in Hcount.
  assert (Hrad : Forall (fun p => in_range (radius_at cs p)) (circles st)).
  { eapply Forall_impl; [| exact Hvalid]. cbn beta. intros p (c & Ec).
    unfold radius_at. rewrite Ec.
    rewrite Forall_forall in Hpar.
    apply (Hpar (ObjCircle c)). eapply nth_error_In, Ec. }
  destruct (reduce_step_shared sched st Hagg) as (_ & _ & Es).
  assert (Hpos : Forall (fun p => 0 <= radius_at (curves st) p) (circles st)).
  { eapply Forall_impl; [| exact Hrad]. cbn beta. unfold in_range.
    change (curves st) with cs. intros p Hp. lra. }
  pose proof (omp_run_between st sched Hpos) as Hb. rewrite <- Es in Hb.
  change (radius_sum st) with (Q2R 0) in Hb. rewrite Q2R_0 in Hb.
  change (curves st) with cs in Hb.
  assert (Htot : total (map (radius_at cs) (circles st))
                 <= 100 * INR (length (circles st))).
  { rewrite <- (length_map (radius_at cs) (circles st)).
    apply total_le_length, Forall_map.
    eapply Forall_impl; [| exact Hrad]. cbn beta. unfold in_range.
    intros p Hp. lra. }
  apply le_INR in Hcount.
  assert (H10 : INR 10 = 10) by (simpl; lra).
  rewrite H10 in Hcount. nra.
Qed.

End MainCorrect.

(** ** The comparator and the bounding radius *)

Section Comparator.

Local Open Scope R_scope.

(** X14.  Over the reals the comparator of the sort is what [std::sort]
    requires on every view, a strict weak ordering: irreflexive, asymmetric
    and transitive; and two pointers are tied (neither compares less)
    exactly when the radii read through them are equal. *)
Theorem by_radius_order (cs : list (object R)) :
  (forall l, strict_weak_order_on (by_radius cs) l) /\
  (forall a, by_radius cs a a = false) /\
  (forall a b, by_radius cs a b = true -> by_radius cs b a = false) /\
  (forall a b c, by_radius cs a b = true -> by_radius cs b c = true ->
                 by_radius cs a c = true) /\
  (forall a b, by_radius cs a b = false /\ by_radius cs b a = false <->
               radius_at cs a = radius_at cs b).
Proof.
  split; [apply by_radius_swo |]. unfold by_radius.
  split; [| split; [| split]].
  - intros a. apply dlt_R_false. lra.
  - intros a b Hab. apply dlt_R_true in Hab. apply dlt_R_false. lra.
  - intros a b c Hab Hbc. apply dlt_R_true in Hab, Hbc.
    apply dlt_R_true. lra.
  - intros a b. rewrite !dlt_R_false. split; [intros [? ?] | intros ->]; lra.
Qed.

(** X15.  Over the reals, for every curve whose parameters are not negative
    and every [t], [point(t)] lies within distance [radius()] of the z-axis:
    at exactly that distance for a Circle and a Helix, within it for an
    Ellipse. *)
Theorem point_within_radius (o : object R) (t : R) :
  radii_nonneg o ->
  xy_distance (point o t) <= radius o /\
  (variant_of o <> VEllipse -> xy_distance (point o t) = radius o).
Proof.
  pose proof (cos2_sin2_1 t) as Hcs.
  destruct o as [[r] | [rx ry] | [r s]]; cbn [radii_nonneg Circle_radius_
    radius_x_ radius_y_ Helix_radius_]; intros Hpos.
  - assert (E : xy_distance (point (ObjCircle (mkCircle r)) t) = Rabs r)
      by apply Circle_xy_distance.
    rewrite E, Rabs_right by lra. simpl. split; [lra | reflexivity].
  - split; [| intros Hv; now contradiction Hv].
    destruct Hpos as [Hx Hy].
    change (radius (ObjEllipse (mkEllipse rx ry))) with (std_max rx ry).
    rewrite std_max_Rmax. set (m := Rmax rx ry).
    assert (Hmx : rx <= m) by apply Rmax_l.
    assert (Hmy : ry <= m) by apply Rmax_r.
    assert (Hm : 0 <= m) by lra.
    rewrite <- (sqrt_square m Hm). unfold xy_distance. simpl.
    apply sqrt_le_1_alt.
    assert (Hcc : 0 <= cos t * cos t) by nra.
    assert (Hss : 0 <= sin t * sin t) by nra.
    assert (Hxx : rx * rx <= m * m) by nra.
    assert (Hyy : ry * ry <= m * m) by nra.
    nra.
  - assert (E : xy_distance (point (ObjHelix (mkHelix r s)) t) = Rabs r).
    { unfold xy_distance; simpl. now apply sqrt_circle. }
    rewrite E, Rabs_right by lra. simpl. split; [lra | reflexivity].
Qed.

End Comparator.

(** ** The added properties at concrete inputs *)

Section MoreWitnesses.

Local Open Scope R_scope.

Lemma reduce_step_partial_sum_witness :
  curves (mkState scenario [3; 0]%nat (0 + 1)) = scenario /\
  circles (mkState scenario [3; 0]%nat (0 + 1)) = [3; 0]%nat /\
  exists S : list nat,
    NoDup S /\
    (forall i, In i S -> (i < 2)%nat) /\
    0 + 1 = partial_sum (loop_term (mkState scenario [3; 0]%nat 0)) 0 S.
Proof.
  apply (reduce_step_partial_sum [0; 1; 1; 0]%nat
           (mkState scenario [3; 0]%nat 0)).
  reflexivity.
Defined.

Lemma reduce_step_bounds_witness :
  0 <= 0 + 1 <= sequential_sum (mkState scenario [3; 0]%nat 0).
Proof.
  apply (reduce_step_bounds [0; 1; 1; 0]%nat
           (mkState scenario [3; 0]%nat 0)
           (st' := mkState scenario [3; 0]%nat (0 + 1))).
  - repeat constructor; unfold radius_at; simpl; lra.
  - reflexivity.
Defined.

Lemma sorted_view_safe_witness :
  let st := sort_step insertion_sort (filter_step (mkState scenario [] 0)) in
  NoDup (circles st) /\
  (length (circles st) <= length scenario)%nat /\
  Forall (fun p => exists c, nth_error scenario p = Some (ObjCircle c))
         (circles st) /\
  (forall tid i,
      (tid < num_threads)%nat ->
      In i (omp_static_chunk (length (circles st)) num_threads tid) ->
      exists p c,
        nth_error (circles st) i = Some p /\
        nth_error scenario p = Some (ObjCircle c) /\
        loop_term st i = Circle_radius_ c).
Proof. exact (sorted_view_safe insertion_sort_contract scenario 0). Defined.

Lemma aggregate_serial_total_witness :
  exists st',
    aggregate insertion_sort
      (serial_schedule (length (filter is_Circle scenario))) scenario
      = Some st' /\
    curves st' = scenario /\
    Permutation (circles st') (filter_circles scenario) /\
    radius_sum st' = total (constructed_radii scenario).
Proof. exact (aggregate_serial_total insertion_sort_contract scenario). Defined.

Lemma objectInfo_variant_witness :
  variant_of (ObjCircle (mkCircle 1)) = variant_of (ObjCircle (mkCircle 2)).
Proof.
  apply (@objectInfo_variant R plain_text
           (ObjCircle (mkCircle 1)) (ObjCircle (mkCircle 2))).
  reflexivity.
Defined.

Lemma build_curves_radius_witness :
  Forall (fun o => in_range (radius o)) counter_curves.
Proof.
  exact (build_curves_radius counter_int counter_real
           counter_int_bounds counter_real_bounds 0%nat).
Defined.

Lemma main_output_shape_witness :
  let sched := serial_schedule (length (circles counter_view)) in
  let out :=
    @report R R_DoubleArith plain_text counter_curves
      ++ [@total_line R plain_text (sequential_sum counter_view)] in
  length out = 41%nat /\
  firstn 40 out = @report R R_DoubleArith plain_text counter_curves /\
  exists v : R,
    nth_error out 40 = Some (@total_line R plain_text v) /\
    main counter_int counter_real insertion_sort 0%nat sched = Some v /\
    0 <= v <= 1000.
Proof.
  intros sched out.
  apply (@main_output_shape nat counter_int counter_real
           counter_int_bounds counter_real_bounds plain_text
           insertion_sort insertion_sort_contract 0%nat sched out).
  unfold main_output, aggregate. cbv zeta.
  fold counter_curves. fold counter_view. unfold sched.
  now rewrite reduce_step_serial.
Defined.

Lemma point_within_radius_witness :
  xy_distance (point (ObjEllipse (mkEllipse 2 5)) 0)
    <= radius (ObjEllipse (mkEllipse 2 5)) /\
  (variant_of (ObjEllipse (mkEllipse 2 5)) <> VEllipse ->
   xy_distance (point (ObjEllipse (mkEllipse 2 5)) 0)
     = radius (ObjEllipse (mkEllipse 2 5))).
Proof.
  apply (point_within_radius (ObjEllipse (mkEllipse 2 5)) 0).
  simpl. lra.
Defined.

End MoreWitnesses.
